(** * Path resolution and namespace operations of the Pintos file system

    A shallow embedding of [src/filesys/filesys.c]: the path parser
    [get_next_part], the resolver [find_file] and the four namespace
    operations [filesys_create], [filesys_open], [filesys_remove] and
    [filesys_change_dir], with the theorems that relate them to the
    written specification.

    Conventions.
    - A C string is the Rocq [string] of the characters that precede its
      terminating NUL; reading [*src] at the end of the string is the
      [EmptyString] case, and [src++] is taking the tail.
    - [int] results are [Z]; sector numbers ([block_sector_t]) are [Z].
    - A pointer to a [struct inode], [struct dir] or [struct file] is an
      [option handle], [None] being [NULL].
    - All state (disk, free map, open handles, the running thread's
      [cwd_sector]) is threaded explicitly through every call. *)

From Stdlib Require Import String Ascii ZArith List Bool Lia.
From stdpp Require Import base option gmap strings list fin_maps.

Import ListNotations.
Local Open Scope string_scope.
Local Open Scope Z_scope.

(** ** Data model *)

(** [block_sector_t]: a sector number. *)
Abbreviation block_sector_t := Z (only parsing).

(** Identity of an in-memory [struct inode], [struct dir] or [struct file]. *)
Abbreviation handle := nat (only parsing).

(** What the inode layer keeps on disk for one inode, as far as this layer
    can observe it: the type flag, the length, and, for a directory, its
    entries (name to inode sector). *)
Record inode_disk := mk_inode_disk {
  i_is_dir : bool;
  i_length : Z;
  i_entries : gmap string Z
}.

(** Calls into the inode/directory/file layers that acquire or give back a
    handle, in the order they happen. *)
Inductive event :=
| EvInodeOpen (h : handle)
| EvInodeClose (h : handle)
| EvDirOpen (h : handle)
| EvDirClose (h : handle)
| EvFileOpen (h : handle).

Record state := mk_state {
  disk : gmap Z inode_disk;        (* inodes by sector *)
  free_map : list bool;            (* free-map bitmap, [true] = in use *)
  cwd_sector : Z;                  (* thread_current()->cwd_sector *)
  open_inodes : gmap nat Z;        (* live struct inode -> its sector *)
  open_dirs : gmap nat nat;        (* live struct dir -> its struct inode *)
  open_files : gmap nat nat;       (* live struct file -> its struct inode *)
  next_handle : handle;            (* next fresh identity *)
  trace : list event;              (* handle events so far *)
  faults : list bool               (* pending device/allocation faults *)
}.

(** The three results of [find_file] as the specification names them. *)
Inductive outcome := Invalid | NotFoundAsLast | FoundAsLast.

#[global] Instance outcome_eq_dec : EqDecision outcome.
Proof. solve_decision. Defined.

Definition outcome_of_int (r : Z) : outcome :=
  if r =? 1 then FoundAsLast else if r =? 0 then NotFoundAsLast else Invalid.

Definition int_of_outcome (o : outcome) : Z :=
  match o with Invalid => -1 | NotFoundAsLast => 0 | FoundAsLast => 1 end.

(** What [filesys_open] returns: [NULL], or a [struct dir *] / a
    [struct file *] (the C code returns both through [struct file *]). *)
Inductive open_result :=
| OpenNull
| OpenDir (d : handle)
| OpenFile (f : handle).

(** ** Paths as the specification describes them *)

(** The fields of a path between separators, empty ones included. *)
Fixpoint split_path (s : string) : list string :=
  match s with
  | EmptyString => [EmptyString]
  | String c rest =>
      if Ascii.eqb c "/" then EmptyString :: split_path rest
      else match split_path rest with
           | f :: fs => String c f :: fs
           | [] => [String c EmptyString]
           end
  end.

Definition nonempty (s : string) : bool :=
  match s with EmptyString => false | _ => true end.

(** The components of a path: its non-empty separator-delimited fields,
    in order. *)
Definition components (s : string) : list string :=
  List.filter nonempty (split_path s).

(** Whether the last character of a path is a separator. *)
Fixpoint ends_in_slash (s : string) : bool :=
  match s with
  | EmptyString => false
  | String c EmptyString => Ascii.eqb c "/"
  | String _ rest => ends_in_slash rest
  end.

(** Whether a path begins with a separator ([src[0] == '/']). *)
Definition is_absolute (s : string) : bool :=
  match s with
  | String c _ => Ascii.eqb c "/"
  | EmptyString => false
  end.

(** The first field of a path (its characters up to the first separator)
    and what follows it. *)
Fixpoint field (s : string) : string :=
  match s with
  | String c r => if Ascii.eqb c "/" then EmptyString else String c (field r)
  | EmptyString => EmptyString
  end.

Fixpoint drop_field (s : string) : string :=
  match s with
  | String c r => if Ascii.eqb c "/" then s else drop_field r
  | EmptyString => EmptyString
  end.

(** The first [n] characters of a string. *)
Fixpoint take_chars (n : nat) (s : string) : string :=
  match n, s with
  | S n', String c r => String c (take_chars n' r)
  | _, _ => EmptyString
  end.

(** Whether a path consists of separators only. *)
Fixpoint only_slashes (s : string) : bool :=
  match s with
  | String c r => Ascii.eqb c "/" && only_slashes r
  | EmptyString => true
  end.

(** [n] separators. *)
Fixpoint slashes (n : nat) : string :=
  match n with
  | O => EmptyString
  | S n' => String "/" (slashes n')
  end.

(** ** State updates *)

Definition set_disk (st : state) (d : gmap Z inode_disk) : state :=
  mk_state d (free_map st) (cwd_sector st) (open_inodes st) (open_dirs st)
           (open_files st) (next_handle st) (trace st) (faults st).

Definition set_free_map (st : state) (fm : list bool) : state :=
  mk_state (disk st) fm (cwd_sector st) (open_inodes st) (open_dirs st)
           (open_files st) (next_handle st) (trace st) (faults st).

Definition set_cwd_sector (st : state) (s : Z) : state :=
  mk_state (disk st) (free_map st) s (open_inodes st) (open_dirs st)
           (open_files st) (next_handle st) (trace st) (faults st).

Definition set_faults (st : state) (fs : list bool) : state :=
  mk_state (disk st) (free_map st) (cwd_sector st) (open_inodes st)
           (open_dirs st) (open_files st) (next_handle st) (trace st) fs.

(** Hands out the next fresh identity and records the event. *)
Definition new_inode_handle (st : state) (sector : Z) : state * handle :=
  let h := next_handle st in
  (mk_state (disk st) (free_map st) (cwd_sector st)
            (<[h := sector]> (open_inodes st)) (open_dirs st) (open_files st)
            (S h) (trace st ++ [EvInodeOpen h]) (faults st), h).

Definition new_dir_handle (st : state) (ih : handle) : state * handle :=
  let h := next_handle st in
  (mk_state (disk st) (free_map st) (cwd_sector st)
            (open_inodes st) (<[h := ih]> (open_dirs st)) (open_files st)
            (S h) (trace st ++ [EvDirOpen h]) (faults st), h).

Definition new_file_handle (st : state) (ih : handle) : state * handle :=
  let h := next_handle st in
  (mk_state (disk st) (free_map st) (cwd_sector st)
            (open_inodes st) (open_dirs st) (<[h := ih]> (open_files st))
            (S h) (trace st ++ [EvFileOpen h]) (faults st), h).

Definition drop_inode_handle (st : state) (h : handle) : state :=
  mk_state (disk st) (free_map st) (cwd_sector st)
           (delete h (open_inodes st)) (open_dirs st) (open_files st)
           (next_handle st) (trace st ++ [EvInodeClose h]) (faults st).

Definition drop_dir_handle (st : state) (h : handle) : state :=
  mk_state (disk st) (free_map st) (cwd_sector st)
           (open_inodes st) (delete h (open_dirs st)) (open_files st)
           (next_handle st) (trace st ++ [EvDirClose h]) (faults st).

(** ** The collaborators

    The inode, directory, file and free-map layers lie outside
    [filesys.c].  Each is modelled from its contract in the
    specification (section 6, "Collaborator interfaces consumed"). *)

(** Modelled from the spec: a collaborator call that writes to the device
    or allocates can fail.  [faults] lists, for the fallible calls still to
    come, whether each one fails; when the list is used up every call
    succeeds. *)
Definition take_fault (st : state) : state * bool :=
  match faults st with
  | [] => (st, false)
  | f :: fs => (set_faults st fs, f)
  end.

(** Modelled from the spec: [InodeOpen(location) -> handle]
    ([inode_open], filesys/inode.c). *)
Definition inode_open (st : state) (sector : block_sector_t)
  : state * option handle :=
  let '(st', h) := new_inode_handle st sector in (st', Some h).

(** Modelled from the spec: [InodeClose(handle)] ([inode_close],
    filesys/inode.c); closing [NULL] does nothing. *)
Definition inode_close (st : state) (inode : option handle) : state :=
  match inode with
  | None => st
  | Some h => drop_inode_handle st h
  end.

(** Modelled from the spec: [InodeNumber(handle) -> location]
    ([inode_get_inumber], filesys/inode.c). *)
Definition inode_get_inumber (st : state) (inode : option handle)
  : block_sector_t :=
  match inode with
  | Some h => default 0 (open_inodes st !! h)
  | None => 0
  end.

(** The on-disk inode an inode pointer refers to. *)
Definition inode_data (st : state) (inode : option handle)
  : option inode_disk :=
  match inode with
  | Some h =>
      match open_inodes st !! h with
      | Some s => disk st !! s
      | None => None
      end
  | None => None
  end.

(** Modelled from the spec: [InodeIsDirectory(handle) -> bool]
    ([inode_is_dir], filesys/inode.c). *)
Definition inode_is_dir (st : state) (inode : option handle) : bool :=
  match inode_data st inode with
  | Some ino => i_is_dir ino
  | None => false
  end.

(** Modelled from the spec: [InodeCreate(location, size, isDirectory) ->
    bool] ([inode_create], filesys/inode.c): writes a fresh inode of the
    given length and type at [sector], or fails. *)
Definition inode_create (st : state) (sector : block_sector_t)
    (length : Z) (is_dir : bool) : state * bool :=
  let '(st1, fault) := take_fault st in
  if fault then (st1, false)
  else (set_disk st1 (<[sector := mk_inode_disk is_dir length ∅]> (disk st1)),
        true).

(** Modelled from the spec: [DirectoryOpen(inodeHandle) -> handle]
    ([dir_open], filesys/directory.c).  The directory handle takes over
    the inode handle it is given. *)
Definition dir_open (st : state) (inode : option handle)
  : state * option handle :=
  match inode with
  | None => (st, None)
  | Some ih => let '(st', d) := new_dir_handle st ih in (st', Some d)
  end.

(** Modelled from the spec: [DirectoryClose(handle)] ([dir_close],
    filesys/directory.c): gives back the directory handle and the inode
    handle it owns; closing [NULL] does nothing. *)
Definition dir_close (st : state) (dir : option handle) : state :=
  match dir with
  | None => st
  | Some d => inode_close (drop_dir_handle st d) (open_dirs st !! d)
  end.

(** Modelled from the spec: [DirectoryGetInode(handle) -> inodeHandle]
    ([dir_get_inode], filesys/directory.c). *)
Definition dir_get_inode (st : state) (dir : option handle)
  : option handle :=
  match dir with
  | Some d => open_dirs st !! d
  | None => None
  end.

(** The sector of the inode behind a directory pointer. *)
Definition dir_sector (st : state) (dir : option handle)
  : option block_sector_t :=
  match dir_get_inode st dir with
  | Some ih => open_inodes st !! ih
  | None => None
  end.

(** The entries of the directory stored at [sector]. *)
Definition entries_at (d : gmap Z inode_disk) (sector : block_sector_t)
  : gmap string Z :=
  match d !! sector with
  | Some ino => i_entries ino
  | None => ∅
  end.

(** Modelled from the spec: [DirectoryLookup(handle, name) -> inodeHandle
    | miss] ([dir_lookup], filesys/directory.c): on a hit opens the inode
    of the entry, on a miss stores [NULL]. *)
Definition dir_lookup (st : state) (dir : option handle) (name : string)
  : state * bool * option handle :=
  match dir_sector st dir with
  | Some ds =>
      match entries_at (disk st) ds !! name with
      | Some s => let '(st', ih) := inode_open st s in (st', true, ih)
      | None => (st, false, None)
      end
  | None => (st, false, None)
  end.

(** Modelled from the spec: [DirectoryAdd(handle, name, location) -> bool]
    ([dir_add], filesys/directory.c): fails when the name is in use or the
    write fails, otherwise adds the entry. *)
Definition dir_add (st : state) (dir : option handle) (name : string)
    (sector : block_sector_t) : state * bool :=
  match dir_sector st dir with
  | Some ds =>
      match entries_at (disk st) ds !! name with
      | Some _ => (st, false)
      | None =>
          let '(st1, fault) := take_fault st in
          if fault then (st1, false)
          else
            let ino := default (mk_inode_disk true 0 ∅) (disk st1 !! ds) in
            let ino' := mk_inode_disk (i_is_dir ino) (i_length ino)
                          (<[name := sector]> (i_entries ino)) in
            (set_disk st1 (<[ds := ino']> (disk st1)), true)
      end
  | None => (st, false)
  end.

(** Modelled from the spec: [DirectoryRemove(handle, name) -> bool]
    ([dir_remove], filesys/directory.c): erases the entry called [name],
    or fails when there is none. *)
Definition dir_remove (st : state) (dir : option handle) (name : string)
  : state * bool :=
  match dir_sector st dir with
  | Some ds =>
      match disk st !! ds with
      | Some ino =>
          match i_entries ino !! name with
          | Some _ =>
              let ino' := mk_inode_disk (i_is_dir ino) (i_length ino)
                            (delete name (i_entries ino)) in
              (set_disk st (<[ds := ino']> (disk st)), true)
          | None => (st, false)
          end
      | None => (st, false)
      end
  | None => (st, false)
  end.

(** Modelled from the spec: an open file handle on an inode ([file_open],
    filesys/file.c). *)
Definition file_open (st : state) (inode : option handle)
  : state * option handle :=
  match inode with
  | None => (st, None)
  | Some ih => let '(st', f) := new_file_handle st ih in (st', Some f)
  end.

(** The lowest clear bit of the free-map bitmap. *)
Fixpoint first_free (bm : list bool) : option nat :=
  match bm with
  | [] => None
  | b :: bm' => if b then S <$> first_free bm' else Some O
  end.

(** Modelled from the spec: [Allocate(count) -> location | failure]
    ([free_map_allocate], filesys/free-map.c) for [count = 1]: marks the
    lowest free sector in use, or fails when none is free (the caller's
    [inode_sector] then keeps its initial [0]). *)
Definition free_map_allocate (st : state) : state * bool * block_sector_t :=
  match first_free (free_map st) with
  | Some i => (set_free_map st (<[i := true]> (free_map st)), true, Z.of_nat i)
  | None => (st, false, 0)
  end.

(** Modelled from the spec: [Release(location, count)]
    ([free_map_release], filesys/free-map.c) for [count = 1]. *)
Definition free_map_release (st : state) (sector : block_sector_t) : state :=
  set_free_map st (<[Z.to_nat sector := false]> (free_map st)).

(** Whether [sector] is marked in use in the free map. *)
Definition in_use (fm : list bool) (sector : block_sector_t) : Prop :=
  0 <= sector ∧ fm !! Z.to_nat sector = Some true.

(** ** Example file systems

    Sector 0 holds the free map and sector 1 the root directory, as in
    stock Pintos; the examples are run with [NAME_MAX = 14] and
    [ROOT_DIR_SECTOR = 1]. *)

(** The root directory holds one entry, "a", an empty directory at sector
    2; sectors 3 and 4 are free; the thread's working directory is the
    root; nothing is open. *)
Definition fs_root_a : state :=
  mk_state {[ 1 := mk_inode_disk true 0 {[ "a" := 2 ]};
              2 := mk_inode_disk true 0 ∅ ]}
           [true; true; true; false; false] 1 ∅ ∅ ∅ O [] [].

(** The same file system when the write that adds "." to a new directory
    is going to fail (the second fallible call of a create: the first is
    the inode's creation). *)
Definition fs_dot_fails : state := set_faults fs_root_a [false; true].

(** The same file system when the write that adds ".." to a new directory
    is going to fail (the third fallible call of a create). *)
Definition fs_dotdot_fails : state :=
  set_faults fs_root_a [false; false; true].

(** The same file system with no free sector left. *)
Definition fs_full : state := set_free_map fs_root_a [true; true; true].

(** The same file system seen by a thread whose working directory is the
    directory "a" (sector 2). *)
Definition fs_in_a : state := set_cwd_sector fs_root_a 2.

(** The same file system when the next fallible call, the first of a
    create being [inode_create], is going to fail. *)
Definition fs_inode_fails : state := set_faults fs_root_a [true].

Section Filesys.

(** [NAME_MAX] and [ROOT_DIR_SECTOR] are declared in [filesys/directory.h]
    and [filesys/filesys.h], outside [filesys.c]: they are parameters of
    the development. *)
Variable NAME_MAX : nat.
Variable ROOT_DIR_SECTOR : block_sector_t.

(** ** The path parser *)

(** [while ( *src == '/') src++;] *)
Fixpoint skip_slashes (src : string) : string :=
  match src with
  | String c rest => if Ascii.eqb c "/" then skip_slashes rest else src
  | EmptyString => src
  end.

(** The copy loop of [get_next_part].  [dst] is what has been written to
    [part] so far, so [dst < part + NAME_MAX] is
    [String.length dst < NAME_MAX].  The boolean is [false] for the
    [return -1] exit. *)
Fixpoint copy_part (src dst : string) : bool * string * string :=
  match src with
  | EmptyString => (true, dst, src)
  | String c rest =>
      if Ascii.eqb c "/" then (true, dst, src)
      else if (String.length dst <? NAME_MAX)%nat
           then copy_part rest (dst +:+ String c EmptyString)
           else (false, dst, src)
  end.

(** [get_next_part part srcp]: result, the buffer [part] afterwards and
    the cursor [*srcp] afterwards.  The cursor is only written on the
    success exit; on [-1] the buffer holds the [NAME_MAX] characters
    written so far (unterminated in C; no caller reads it). *)
Definition get_next_part (part src : string) : Z * string * string :=
  match skip_slashes src with
  | EmptyString => (0, part, src)
  | src1 =>
      match copy_part src1 EmptyString with
      | (true, dst, src2) => (1, dst, src2)
      | (false, dst, _) => (-1, dst, src)
      end
  end.

(** Repeated calls to the parser until it stops producing components:
    the components produced and the result of the last call. *)
Fixpoint get_all_parts (fuel : nat) (part src : string)
  : option (list string * Z) :=
  match fuel with
  | O => None
  | S fuel' =>
      match get_next_part part src with
      | (r, part', src') =>
          if r =? 1 then
            match get_all_parts fuel' part' src' with
            | Some (ps, r') => Some (part' :: ps, r')
            | None => None
            end
          else Some ([], r)
      end
  end.

(** ** The resolver *)

(** Modelled from the spec: [DirectoryOpenRoot() -> handle]
    ([dir_open_root], filesys/directory.c): the directory at the fixed
    root sector. *)
Definition dir_open_root (st : state) : state * option handle :=
  let '(st1, ih) := inode_open st ROOT_DIR_SECTOR in
  dir_open st1 ih.

(** What [find_file] hands back: its [int] result and the contents of
    [filename], [*cwd] and [*next_inode]. *)
Definition find_result : Type :=
  Z * string * option handle * option handle.

(** The [while (true)] loop of [find_file].  One unit of [fuel] is one
    iteration; [find_file_loop_terminates] shows that one more than the
    length of [src] is always enough. *)
Fixpoint find_file_loop (fuel : nat) (st : state) (src filename : string)
    (cwd next_inode : option handle) (result : Z)
  : option (state * find_result) :=
  match fuel with
  | O => None
  | S fuel' =>
      let '(part_result, filename1, src1) := get_next_part filename src in
      if part_result =? -1 then Some (st, (result, filename1, cwd, next_inode))
      else if part_result =? 0
      then Some (st, (result, filename1, cwd, next_inode))
      else
        let '(st1, found, next_inode1) := dir_lookup st cwd filename1 in
        if found then
          match src1 with
          | EmptyString => Some (st1, (1, filename1, cwd, next_inode1))
          | _ =>
              let st2 := dir_close st1 cwd in
              let '(st3, cwd1) := dir_open st2 next_inode1 in
              find_file_loop fuel' st3 src1 filename1 cwd1 next_inode1 result
          end
        else
          match src1 with
          | EmptyString => Some (st1, (0, filename1, cwd, next_inode1))
          | _ => Some (st1, (result, filename1, cwd, next_inode1))
          end
  end.

(** [find_file src filename cwd next_inode]: [-1] invalid path, [0] not
    found but it is the last part, [1] found and it is the last part.
    The loop is granted one iteration more than [src] has characters; the
    [None] branch is never taken ([find_file_loop_terminates]). *)
Definition find_file (st : state) (src : string) : state * find_result :=
  let result := -1 in
  let next_inode : option handle := None in
  let cwd_sector := cwd_sector st in
  let '(st1, cwd) :=
    if is_absolute src then dir_open_root st
    else let '(st0, ih) := inode_open st cwd_sector in dir_open st0 ih in
  let filename := EmptyString in
  match find_file_loop (S (String.length src)) st1 src filename cwd
          next_inode result with
  | Some r => r
  | None => (st1, (result, filename, cwd, next_inode))
  end.

(** ** The namespace operations *)

(** C's conversion of an [int] to [bool]. *)
Definition bool_of_int (r : Z) : bool := negb (r =? 0).

(** [filesys_create name initial_size is_dir].  [res] is a [bool] in the
    source, so the [int] that [find_file] returns is converted first;
    [success &= ...] evaluates its right-hand side whatever [success]
    is, and [&&] only evaluates the second [dir_add] when the first
    succeeded. *)
Definition filesys_create (st : state) (name : string) (initial_size : Z)
    (is_dir : bool) : state * bool :=
  let '(st1, (r, filename, parent_dir, inode)) := find_file st name in
  let res : bool := bool_of_int r in
  if res then (dir_close st1 parent_dir, false)
  else
    match parent_dir with
    | None => (st1, false)
    | Some _ =>
        let '(st2, allocated, inode_sector) := free_map_allocate st1 in
        if negb allocated then (st2, false)
        else
          let '(st3, created) :=
            inode_create st2 inode_sector initial_size is_dir in
          if negb created then (free_map_release st3 inode_sector, false)
          else
            let success := true in
            let '(st4, success) :=
              if is_dir then
                let '(sa0, ih) := inode_open st3 inode_sector in
                let '(sa, new_dir) := dir_open sa0 ih in
                let '(sb, ok1) := dir_add sa new_dir "." inode_sector in
                let '(sc, ok2) :=
                  if ok1 then
                    dir_add sb new_dir ".."
                      (inode_get_inumber sb (dir_get_inode sb parent_dir))
                  else (sb, false) in
                (dir_close sc new_dir, success && ok2)
              else (st3, success) in
            let '(st5, ok3) := dir_add st4 parent_dir filename inode_sector in
            let success := success && ok3 in
            let st6 := dir_close st5 parent_dir in
            if negb success then (free_map_release st6 inode_sector, success)
            else (st6, success)
    end.

(** [filesys_open name]. *)
Definition filesys_open (st : state) (name : string) : state * open_result :=
  let '(st1, (res, filename, dir, inode)) := find_file st name in
  let st2 := dir_close st1 dir in
  if res =? 1 then
    if inode_is_dir st2 inode then
      let '(st3, d) := dir_open st2 inode in
      (st3, match d with Some h => OpenDir h | None => OpenNull end)
    else
      let '(st3, f) := file_open st2 inode in
      (st3, match f with Some h => OpenFile h | None => OpenNull end)
  else (inode_close st2 inode, OpenNull).

(** [filesys_remove name].  [dir_remove] is given [name], the whole
    path, as in the source. *)
Definition filesys_remove (st : state) (name : string) : state * bool :=
  let '(st1, (res, filename, dir, inode)) := find_file st name in
  let success := false in
  let '(st2, success) :=
    if (res =? 1) && negb (inode_get_inumber st1 inode =? cwd_sector st1)
    then
      match dir with
      | None => (st1, false)
      | Some _ => dir_remove st1 dir name
      end
    else (st1, success) in
  (dir_close st2 dir, success).

(** [filesys_change_dir path]. *)
Definition filesys_change_dir (st : state) (path : string) : state * bool :=
  let '(st1, (res, filename, dir, inode)) := find_file st path in
  let st2 := dir_close st1 dir in
  let success := false in
  let '(st3, success) :=
    if res =? 1 then
      if inode_is_dir st2 inode
      then (set_cwd_sector st2 (inode_get_inumber st2 inode), true)
      else (st2, success)
    else (st2, success) in
  (inode_close st3 inode, success).

(** ** The resolver over the components of the path *)

(** The walk of [find_file], stated over the list of components still to
    come and whether the path ends in a separator, rather than over the
    character cursor.  [find_file_loop_components] shows that the loop
    computes exactly this. *)
Fixpoint resolve_components (cs : list string) (trailing : bool)
    (st : state) (filename : string) (cwd next_inode : option handle)
    (result : Z) : state * find_result :=
  match cs with
  | [] => (st, (result, filename, cwd, next_inode))
  | c :: cs' =>
      if (NAME_MAX <? String.length c)%nat
      then (st, (result, take_chars NAME_MAX c, cwd, next_inode))
      else
        let is_last := match cs' with [] => negb trailing | _ => false end in
        let '(st1, found, next_inode1) := dir_lookup st cwd c in
        if found then
          if is_last then (st1, (1, c, cwd, next_inode1))
          else
            let st2 := dir_close st1 cwd in
            let '(st3, cwd1) := dir_open st2 next_inode1 in
            resolve_components cs' trailing st3 c cwd1 next_inode1 result
        else (st1, (if is_last then 0 else result, c, cwd, next_inode1))
  end.

(** The Resolution Outcome of the specification (section 4.2) on the
    namespace alone: starting in the directory at sector [dir], the
    outcome, the sector of the directory the walk stopped in, and the
    sector of the resolved inode. *)
Fixpoint resolve (d : gmap Z inode_disk) (trailing : bool)
    (dir : block_sector_t) (cs : list string)
  : outcome * block_sector_t * option block_sector_t :=
  match cs with
  | [] => (Invalid, dir, None)
  | c :: cs' =>
      if (NAME_MAX <? String.length c)%nat then (Invalid, dir, None)
      else
        let is_last := match cs' with [] => negb trailing | _ => false end in
        match entries_at d dir !! c with
        | Some s =>
            if is_last then (FoundAsLast, dir, Some s)
            else resolve d trailing s cs'
        | None =>
            (if is_last then NotFoundAsLast else Invalid, dir, None)
        end
  end.

(** The state and handles [find_file] starts its walk with. *)
Definition find_file_start (st : state) (src : string)
  : state * option handle :=
  if is_absolute src then dir_open_root st
  else let '(st0, ih) := inode_open st (cwd_sector st) in dir_open st0 ih.

(** The directory [find_file] starts from. *)
Definition start_sector (st : state) (path : string) : block_sector_t :=
  if is_absolute path then ROOT_DIR_SECTOR else cwd_sector st.

(** [Resolve(P)] of the specification, in state [st]. *)
Definition resolve_path (st : state) (path : string)
  : outcome * block_sector_t * option block_sector_t :=
  resolve (disk st) (ends_in_slash path) (start_sector st path)
          (components path).

(** The parts of what [find_file] hands back. *)
Definition find_state (res : state * find_result) : state := fst res.
Definition find_code (res : state * find_result) : Z :=
  fst (fst (fst (snd res))).
Definition find_filename (res : state * find_result) : string :=
  snd (fst (fst (snd res))).
Definition find_dir (res : state * find_result) : option handle :=
  snd (fst (snd res)).
Definition find_inode (res : state * find_result) : option handle :=
  snd (snd res).

(** Follows the components [pre], each of which must name an entry of the
    directory reached so far; the sector reached. *)
Fixpoint descend (d : gmap Z inode_disk) (dir : block_sector_t)
    (pre : list string) : option block_sector_t :=
  match pre with
  | [] => Some dir
  | c :: pre' =>
      match entries_at d dir !! c with
      | Some s => descend d s pre'
      | None => None
      end
  end.

(** Every component fits in a directory entry name. *)
Definition all_fit (cs : list string) : Prop :=
  Forall (λ c, (String.length c <= NAME_MAX)%nat) cs.

(** ** Handle discipline *)

(** Runs the directory-handle events of a trace from [live] live
    handles: the number live at the end, or [None] as soon as more than
    one is live at once. *)
Fixpoint dirs_live (live : nat) (evs : list event) : option nat :=
  match evs with
  | [] => Some live
  | EvDirOpen _ :: evs' =>
      if (live <? 1)%nat then dirs_live (S live) evs' else None
  | EvDirClose _ :: evs' => dirs_live (Nat.pred live) evs'
  | _ :: evs' => dirs_live live evs'
  end.

(** Runs the directory-handle events of a trace handle by handle.
    [held] is the directory handle held so far, if any.  A directory may
    be opened only while none is held, and the only directory that may be
    closed is the one held.  The result is the handle held at the end, or
    [None] as soon as an event breaks either rule. *)
Fixpoint dir_discipline (held : option handle) (evs : list event)
  : option (option handle) :=
  match evs with
  | [] => Some held
  | EvDirOpen h :: evs' =>
      match held with
      | None => dir_discipline (Some h) evs'
      | Some _ => None
      end
  | EvDirClose h :: evs' =>
      match held with
      | Some h' => if Nat.eqb h h' then dir_discipline None evs' else None
      | None => None
      end
  | _ :: evs' => dir_discipline held evs'
  end.

(** How often a handle is given back in a trace. *)
Definition is_close_of (h : handle) (e : event) : bool :=
  match e with
  | EvInodeClose h' | EvDirClose h' => Nat.eqb h h'
  | _ => false
  end.

Definition closes_of (h : handle) (evs : list event) : nat :=
  List.length (List.filter (is_close_of h) evs).

(** The events a call appended to the trace. *)
Definition new_events (st st' : state) : list event :=
  skipn (List.length (trace st)) (trace st').

(** [cwd] is the live directory handle [dh], which wraps the live inode
    handle [ih] of the directory at sector [dsec]. *)
Definition dir_at (st : state) (cwd : option handle) (dh ih : handle)
    (dsec : block_sector_t) : Prop :=
  cwd = Some dh ∧
  open_dirs st !! dh = Some ih ∧
  open_inodes st !! ih = Some dsec ∧
  (ih < dh)%nat ∧ (dh < next_handle st)%nat.

(** Two states that differ at most in their handle tables and trace. *)
Definition same_store (st st' : state) : Prop :=
  disk st' = disk st ∧ free_map st' = free_map st ∧
  cwd_sector st' = cwd_sector st ∧ faults st' = faults st ∧
  open_files st' = open_files st.

(** Whether a name has no separator in it. *)
Fixpoint no_slash (s : string) : bool :=
  match s with
  | String c r => negb (Ascii.eqb c "/") && no_slash r
  | EmptyString => true
  end.

(** How often a handle is handed out in a trace. *)
Definition is_open_of (h : handle) (e : event) : bool :=
  match e with
  | EvInodeOpen h' | EvDirOpen h' | EvFileOpen h' => Nat.eqb h h'
  | _ => false
  end.

Definition opens_of (h : handle) (evs : list event) : nat :=
  List.length (List.filter (is_open_of h) evs).

(** A trace in which no handle is handed out twice, the handles in
    [kept] are not given back, every other handle that is handed out is
    given back exactly once, and nothing else is given back. *)
Definition balanced (kept : list handle) (evs : list event) : Prop :=
  ∀ h, (opens_of h evs <= 1)%nat ∧
       closes_of h evs = if bool_decide (h ∈ kept) then O else opens_of h evs.

(** Two states with the same inodes on disk, free map and pending
    faults. *)
Definition same_disk (st st' : state) : Prop :=
  disk st' = disk st ∧ free_map st' = free_map st ∧ faults st' = faults st.

(** ** Well-formed file-system states *)

(** Every sector a directory entry names is marked in use in the free
    map, and so are the root directory and the working directory: the
    allocator never hands out a sector the namespace already refers to. *)
Definition fs_ok (st : state) : Prop :=
  in_use (free_map st) ROOT_DIR_SECTOR ∧
  in_use (free_map st) (cwd_sector st) ∧
  ∀ d name s, entries_at (disk st) d !! name = Some s →
              in_use (free_map st) s.

(** * Proofs *)

(** ** The structure of paths *)

Lemma split_path_field s :
  split_path s =
  field s :: match drop_field s with
             | String _ r => split_path r
             | EmptyString => []
             end.
Proof.
  induction s as [|c r IH]; simpl; [reflexivity|].
  destruct (Ascii.eqb c "/"); [reflexivity|].
  rewrite IH. reflexivity.
Qed.

Lemma components_slash r : components (String "/" r) = components r.
Proof. reflexivity. Qed.

Lemma components_empty : components EmptyString = [].
Proof. reflexivity. Qed.

Lemma drop_field_shape s :
  drop_field s = EmptyString ∨ ∃ r, drop_field s = String "/" r.
Proof.
  induction s as [|c r IH]; simpl; [by left|].
  destruct (Ascii.eqb_spec c "/") as [->|]; [right; eauto | exact IH].
Qed.

Lemma components_field c r :
  c ≠ "/"%char →
  components (String c r) = field (String c r) :: components (drop_field (String c r)).
Proof.
  intros Hc. unfold components at 1. rewrite split_path_field.
  simpl. destruct (Ascii.eqb_spec c "/") as [|_]; [done|]. simpl.
  f_equal.
  destruct (drop_field_shape r) as [->| [r' ->]]; reflexivity.
Qed.

Lemma skip_slashes_components s : components (skip_slashes s) = components s.
Proof.
  induction s as [|c r IH]; simpl; [reflexivity|].
  destruct (Ascii.eqb_spec c "/") as [->|]; [|reflexivity].
  rewrite IH. reflexivity.
Qed.

Lemma skip_slashes_shape s :
  skip_slashes s = EmptyString ∨
  ∃ c r, skip_slashes s = String c r ∧ c ≠ "/"%char.
Proof.
  induction s as [|c r IH]; simpl; [by left|].
  destruct (Ascii.eqb_spec c "/") as [->|Hc]; [exact IH|right; eauto].
Qed.

Lemma skip_slashes_length s :
  (String.length (skip_slashes s) <= String.length s)%nat.
Proof.
  induction s as [|c r IH]; simpl; [lia|].
  destruct (Ascii.eqb c "/"); simpl; lia.
Qed.

Lemma ends_in_slash_cons c r :
  r ≠ EmptyString → ends_in_slash (String c r) = ends_in_slash r.
Proof. destruct r; [done|reflexivity]. Qed.

Lemma skip_slashes_ends s :
  skip_slashes s ≠ EmptyString →
  ends_in_slash (skip_slashes s) = ends_in_slash s.
Proof.
  induction s as [|c r IH]; cbn [skip_slashes]; [done|].
  destruct (Ascii.eqb_spec c "/") as [->|Hc]; [|reflexivity].
  intros Hne. rewrite IH by done.
  symmetry. apply ends_in_slash_cons. intros ->. done.
Qed.

Lemma drop_field_length c r :
  c ≠ "/"%char →
  (String.length (drop_field (String c r)) < String.length (String c r))%nat.
Proof.
  intros Hc. simpl. destruct (Ascii.eqb_spec c "/") as [|_]; [done|].
  clear Hc. induction r as [|c' r IH]; simpl; [lia|].
  destruct (Ascii.eqb c' "/"); simpl in *; lia.
Qed.

Lemma drop_field_ends_nonempty s :
  drop_field s ≠ EmptyString →
  ends_in_slash (drop_field s) = ends_in_slash s.
Proof.
  induction s as [|c r IH]; cbn [drop_field]; [done|].
  destruct (Ascii.eqb_spec c "/") as [->|Hc]; [reflexivity|].
  intros Hne. rewrite IH by done.
  symmetry. apply ends_in_slash_cons. intros ->. done.
Qed.

Lemma drop_field_ends_empty s :
  drop_field s = EmptyString → ends_in_slash s = false.
Proof.
  induction s as [|c r IH]; cbn [drop_field]; [done|].
  destruct (Ascii.eqb_spec c "/") as [->|Hc]; [done|].
  intros Hd. destruct r as [|c' r'].
  - cbn. by apply Ascii.eqb_neq.
  - rewrite ends_in_slash_cons by done. by apply IH.
Qed.

Lemma only_slashes_ends s :
  components s = [] → s ≠ EmptyString → ends_in_slash s = true.
Proof.
  induction s as [|c r IH]; [done|].
  intros Hc _. destruct (Ascii.eqb_spec c "/") as [->|Hne].
  - destruct r as [|c' r']; [reflexivity|].
    rewrite ends_in_slash_cons by done. apply IH; [|done].
    by rewrite components_slash in Hc.
  - by rewrite components_field in Hc.
Qed.

Lemma append_cons c s t : String c s +:+ t = String c (s +:+ t).
Proof. reflexivity. Qed.

Lemma append_empty_r s : s +:+ EmptyString = s.
Proof.
  induction s as [|c s IH]; [reflexivity|].
  by rewrite append_cons, IH.
Qed.

Lemma append_assoc_char s c t :
  (s +:+ String c EmptyString) +:+ t = s +:+ String c t.
Proof.
  induction s as [|c' s IH]; [reflexivity|].
  by rewrite !append_cons, IH.
Qed.

Lemma length_append s t :
  String.length (s +:+ t) = (String.length s + String.length t)%nat.
Proof.
  induction s as [|c s IH]; [reflexivity|].
  rewrite append_cons. simpl. by rewrite IH.
Qed.

Lemma copy_part_ok src : ∀ dst,
  (String.length dst + String.length (field src) <= NAME_MAX)%nat →
  copy_part src dst = (true, dst +:+ field src, drop_field src).
Proof.
  induction src as [|c r IH]; intros dst Hlen; cbn [copy_part field drop_field].
  - by rewrite append_empty_r.
  - cbn [field] in Hlen.
    destruct (Ascii.eqb c "/"); [by rewrite append_empty_r|].
    cbn [String.length] in Hlen.
    destruct (Nat.ltb_spec (String.length dst) NAME_MAX); [|lia].
    rewrite IH; [by rewrite append_assoc_char|].
    rewrite length_append. simpl. lia.
Qed.

Lemma copy_part_too_long src : ∀ dst,
  (NAME_MAX < String.length dst + String.length (field src))%nat →
  (String.length dst <= NAME_MAX)%nat →
  ∃ s, copy_part src dst =
       (false, dst +:+ take_chars (NAME_MAX - String.length dst) (field src), s).
Proof.
  induction src as [|c r IH]; intros dst Hlen Hdst;
    cbn [copy_part field drop_field] in *.
  - simpl in Hlen. lia.
  - destruct (Ascii.eqb c "/"); [simpl in Hlen; lia|].
    cbn [String.length] in Hlen.
    destruct (Nat.ltb_spec (String.length dst) NAME_MAX).
    + destruct (IH (dst +:+ String c EmptyString)) as [s Hs].
      * rewrite length_append. simpl. lia.
      * rewrite length_append. simpl. lia.
      * exists s. rewrite Hs. f_equal. f_equal.
        rewrite length_append. simpl.
        replace (NAME_MAX - String.length dst)%nat
          with (S (NAME_MAX - (String.length dst + 1)))%nat by lia.
        cbn [take_chars]. by rewrite append_assoc_char.
    + exists (String c r).
      replace (NAME_MAX - String.length dst)%nat with O by lia.
      cbn [take_chars]. by rewrite append_empty_r.
Qed.

Lemma get_next_part_end part src :
  components src = [] → get_next_part part src = (0, part, src).
Proof.
  intros Hc. unfold get_next_part.
  destruct (skip_slashes_shape src) as [->|(c & r & Hs & Hne)]; [done|].
  rewrite <- skip_slashes_components, Hs, components_field in Hc by done.
  done.
Qed.

Lemma get_next_part_too_long part src c cs :
  components src = c :: cs →
  (NAME_MAX < String.length c)%nat →
  get_next_part part src = (-1, take_chars NAME_MAX c, src).
Proof.
  intros Hc Hlen. unfold get_next_part.
  destruct (skip_slashes_shape src) as [Hs|(c0 & r & Hs & Hne)].
  - rewrite <- skip_slashes_components, Hs in Hc. done.
  - rewrite <- skip_slashes_components, Hs, components_field in Hc by done.
    assert (Hf : field (String c0 r) = c) by congruence.
    assert (Hcs : components (drop_field (String c0 r)) = cs) by congruence.
    rewrite Hs.
    destruct (copy_part_too_long (String c0 r) EmptyString) as [s ->].
    + rewrite Hf. simpl. lia.
    + simpl. lia.
    + rewrite Hf. simpl. by rewrite Nat.sub_0_r.
Qed.

Lemma get_next_part_success part src c cs :
  components src = c :: cs →
  (String.length c <= NAME_MAX)%nat →
  ∃ src', get_next_part part src = (1, c, src') ∧
          components src' = cs ∧
          (String.length src' < String.length src)%nat ∧
          match src' with
          | EmptyString => cs = [] ∧ ends_in_slash src = false
          | _ => ends_in_slash src' = ends_in_slash src ∧
                 (cs = [] → ends_in_slash src = true)
          end.
Proof.
  intros Hc Hlen. unfold get_next_part.
  destruct (skip_slashes_shape src) as [Hs|(c0 & r & Hs & Hne)].
  - rewrite <- skip_slashes_components, Hs in Hc. done.
  - pose proof Hc as Hc'.
    rewrite <- skip_slashes_components, Hs, components_field in Hc' by done.
    assert (Hf : field (String c0 r) = c) by congruence.
    assert (Hcs : components (drop_field (String c0 r)) = cs) by congruence.
    rewrite Hs.
    rewrite copy_part_ok by (rewrite Hf; simpl; lia).
    change (EmptyString +:+ field (String c0 r)) with (field (String c0 r)). rewrite Hf.
    exists (drop_field (String c0 r)). split; [done|].
    split; [done|]. split.
    { pose proof (drop_field_length c0 r Hne).
      pose proof (skip_slashes_length src). rewrite Hs in *. lia. }
    assert (Hsne : skip_slashes src ≠ EmptyString) by (rewrite Hs; done).
    pose proof (skip_slashes_ends src Hsne) as He. rewrite Hs in He.
    destruct (drop_field (String c0 r)) as [|c1 r1] eqn:Hd.
    + split; [by rewrite <- Hcs|].
      rewrite <- He. by apply drop_field_ends_empty.
    + rewrite <- He, <- Hd.
      assert (Hdne : drop_field (String c0 r) ≠ EmptyString) by by rewrite Hd.
      split; [by apply drop_field_ends_nonempty|].
      intros ->. rewrite <- (drop_field_ends_nonempty _ Hdne).
      apply only_slashes_ends; [by rewrite Hd|done].
Qed.

(** ** The path parser *)

Lemma only_slashes_components s :
  only_slashes s = true → components s = [].
Proof.
  induction s as [|c r IH]; [done|].
  cbn [only_slashes]. intros [Hc Hr]%andb_true_iff.
  apply Ascii.eqb_eq in Hc as ->. rewrite components_slash. by apply IH.
Qed.

Lemma get_all_parts_prefix fuel : ∀ part src pre,
  (String.length src < fuel)%nat →
  Forall (λ c, (String.length c <= NAME_MAX)%nat) pre →
  (components src = pre ∧ get_all_parts fuel part src = Some (pre, 0)) ∨
  (∀ c post, components src = (pre ++ c :: post)%list →
             (NAME_MAX < String.length c)%nat →
             get_all_parts fuel part src = Some (pre, -1)).
Proof.
  induction fuel as [|fuel IH]; intros part src pre Hfuel Hpre; [lia|].
  right. intros c post Hc Hlong. revert Hc.
  destruct Hpre as [|c0 pre Hc0 Hpre]; intros Hc; cbn [get_all_parts].
  - cbn [app] in Hc. by rewrite (get_next_part_too_long _ _ _ _ Hc Hlong).
  - cbn [app] in Hc.
    destruct (get_next_part_success part src _ _ Hc Hc0)
      as (src' & -> & Hcs & Hlen & _).
    cbn [Z.eqb Pos.eqb].
    destruct (IH c0 src' pre) as [[Heq _]|Hr]; [lia|done|..].
    + rewrite Hcs in Heq. apply (f_equal List.length) in Heq.
      rewrite length_app in Heq. simpl in Heq. lia.
    + by rewrite (Hr c post Hcs Hlong).
Qed.

Lemma get_all_parts_components fuel : ∀ part src,
  (String.length src < fuel)%nat →
  Forall (λ c, (String.length c <= NAME_MAX)%nat) (components src) →
  get_all_parts fuel part src = Some (components src, 0).
Proof.
  induction fuel as [|fuel IH]; intros part src Hfuel Hall; [lia|].
  cbn [get_all_parts]. destruct (components src) as [|c cs] eqn:Hc.
  - by rewrite get_next_part_end.
  - apply Forall_cons in Hall as [Hc0 Hall].
    destruct (get_next_part_success part src _ _ Hc Hc0)
      as (src' & -> & Hcs & Hlen & _).
    cbn [Z.eqb Pos.eqb]. rewrite IH; [by rewrite Hcs|lia|by rewrite Hcs].
Qed.

(** C7.  For a path whose components all fit in [NAME_MAX] characters,
    calling the parser until it stops yields exactly the components of the
    path, in order and unchanged, followed by the end result [0]; a path
    made of separators only yields [0] at once, with no component; and
    when a component is too long the parser returns [-1] at that
    component, after the components before it, and leaves the cursor
    where it was. *)
Theorem parser_yields_components (path part : string) :
  (Forall (λ c, (String.length c <= NAME_MAX)%nat) (components path) →
   get_all_parts (S (String.length path)) part path
   = Some (components path, 0)) ∧
  (only_slashes path = true →
   get_next_part part path = (0, part, path) ∧
   get_all_parts (S (String.length path)) part path = Some ([], 0)) ∧
  (∀ pre c post,
     components path = (pre ++ c :: post)%list →
     Forall (λ c, (String.length c <= NAME_MAX)%nat) pre →
     (NAME_MAX < String.length c)%nat →
     get_all_parts (S (String.length path)) part path = Some (pre, -1)) ∧
  (∀ c cs,
     components path = c :: cs →
     (NAME_MAX < String.length c)%nat →
     ∃ part', get_next_part part path = (-1, part', path)).
Proof.
  split; [|split; [|split]].
  - intros Hall. apply get_all_parts_components; [lia|done].
  - intros Hs. apply only_slashes_components in Hs.
    rewrite get_all_parts_components; [|lia|by rewrite Hs].
    by rewrite get_next_part_end, Hs.
  - intros pre c post Hc Hpre Hlong.
    destruct (get_all_parts_prefix (S (String.length path)) part path pre)
      as [[Heq _]|Hr]; [lia|done|..].
    + rewrite Hc in Heq. apply (f_equal List.length) in Heq.
      rewrite length_app in Heq. simpl in Heq. lia.
    + by apply (Hr c post).
  - intros c cs Hc Hlong. eexists.
    by apply (get_next_part_too_long part path c cs).
Qed.

(** ** The resolver loop and the components of the path *)

Lemma find_file_loop_components fuel :
  ∀ st src filename cwd next_inode result,
  (String.length src < fuel)%nat →
  find_file_loop fuel st src filename cwd next_inode result
  = Some (resolve_components (components src) (ends_in_slash src)
            st filename cwd next_inode result).
Proof.
  induction fuel as [|fuel IH]; intros st src filename cwd ni result Hfuel;
    [lia|].
  cbn [find_file_loop]. destruct (components src) as [|c cs] eqn:Hc.
  - by rewrite get_next_part_end.
  - cbn [resolve_components].
    destruct (Nat.ltb_spec NAME_MAX (String.length c)) as [Hlong|Hfit].
    + by rewrite (get_next_part_too_long _ _ _ _ Hc Hlong).
    + destruct (get_next_part_success filename src _ _ Hc Hfit)
        as (src' & -> & Hcs & Hlen & Hlast).
      cbn [Z.eqb Pos.eqb].
      destruct (dir_lookup st cwd c) as [[st1 found] ni1].
      destruct src' as [|c' r'].
      * destruct Hlast as [-> ->]. cbn [negb]. by destruct found.
      * destruct Hlast as [Hends Hnil].
        assert (match cs with [] => negb (ends_in_slash src) | _ => false end
                = false) as ->.
        { destruct cs; [|done]. by rewrite Hnil. }
        destruct found; [|done].
        destruct (dir_open (dir_close st1 cwd) ni1) as [st3 cwd1].
        rewrite IH by lia. by rewrite Hcs, Hends.
Qed.

(** The loop of [find_file] always returns: it never runs out of the
    iterations [find_file] grants it. *)
Lemma find_file_loop_terminates st src filename cwd next_inode result :
  is_Some (find_file_loop (S (String.length src)) st src filename cwd
             next_inode result).
Proof. rewrite find_file_loop_components by lia. eauto. Qed.

Lemma find_file_components st src :
  find_file st src =
  let '(st1, cwd) := find_file_start st src in
  resolve_components (components src) (ends_in_slash src)
    st1 EmptyString cwd None (-1).
Proof.
  unfold find_file, find_file_start.
  destruct (if is_absolute src then _ else _) as [st1 cwd].
  by rewrite find_file_loop_components by lia.
Qed.

(** ** Handles held along the walk *)

Lemma same_store_refl st : same_store st st.
Proof. by repeat split. Qed.

Lemma same_store_trans st1 st2 st3 :
  same_store st1 st2 → same_store st2 st3 → same_store st1 st3.
Proof.
  intros (? & ? & ? & ? & ?) (? & ? & ? & ? & ?).
  repeat split; congruence.
Qed.

Lemma dir_lookup_at st cwd dh ih dsec c :
  dir_at st cwd dh ih dsec →
  dir_lookup st cwd c =
  match entries_at (disk st) dsec !! c with
  | Some s => (fst (new_inode_handle st s), true, Some (next_handle st))
  | None => (st, false, None)
  end.
Proof.
  intros (-> & Hd & Hi & _). unfold dir_lookup, dir_sector, dir_get_inode.
  rewrite Hd, Hi. by destruct (entries_at (disk st) dsec !! c).
Qed.

Lemma closes_of_app h evs1 evs2 :
  closes_of h (evs1 ++ evs2) = (closes_of h evs1 + closes_of h evs2)%nat.
Proof. unfold closes_of. by rewrite List.filter_app, length_app. Qed.

Lemma last_cons_cons {A} (a b : A) l d :
  List.last (a :: b :: l) d = List.last (b :: l) d.
Proof. reflexivity. Qed.

Lemma resolve_components_spec cs :
  ∀ tr st filename cwd ni dh ih dsec st' r fn cwd' ni' o psec fsec,
  dir_at st cwd dh ih dsec →
  resolve_components cs tr st filename cwd ni (-1) = (st', (r, fn, cwd', ni')) →
  resolve (disk st) tr dsec cs = (o, psec, fsec) →
  r = int_of_outcome o ∧ same_store st st' ∧
  ∃ dh' ih' evs,
    dir_at st' cwd' dh' ih' psec ∧ (ih <= ih')%nat ∧
    trace st' = (trace st ++ evs)%list ∧
    dirs_live 1 evs = Some 1%nat ∧
    (∀ h, closes_of h evs ≠ O → (h < ih')%nat) ∧
    match o with
    | FoundAsLast =>
        ∃ fh s, ni' = Some fh ∧ fsec = Some s ∧
                open_inodes st' !! fh = Some s ∧
                (dh' < fh)%nat ∧ (fh < next_handle st')%nat ∧
                fn = List.last cs EmptyString
    | NotFoundAsLast =>
        ni' = None ∧ fsec = None ∧ fn = List.last cs EmptyString
    | Invalid => fsec = None
    end.
Proof.
  induction cs as [|c cs IH];
    intros tr st filename cwd ni dh ih dsec st' r fn cwd' ni' o psec fsec
           Hat Hwalk Hres.
  { cbn in Hwalk, Hres. simplify_eq. split; [done|].
    split; [apply same_store_refl|].
    exists dh, ih, []. rewrite app_nil_r.
    split; [done|]. repeat split; done. }
  cbn [resolve_components resolve] in Hwalk, Hres.
  destruct (NAME_MAX <? String.length c)%nat.
  { simplify_eq. split; [done|]. split; [apply same_store_refl|].
    exists dh, ih, []. rewrite app_nil_r.
    split; [done|]. repeat split; done. }
  rewrite (dir_lookup_at _ _ _ _ _ _ Hat) in Hwalk.
  pose proof Hat as (Hcwd & Hd & Hi & Hlt1 & Hlt2).
  destruct (entries_at (disk st) dsec !! c) as [s|] eqn:Hent.
  2:{ assert (fsec = None ∧ psec = dsec ∧ st' = st ∧ cwd' = cwd ∧ ni' = None
              ∧ fn = c) as (-> & -> & -> & -> & -> & ->).
      { destruct cs, tr; cbn in *; by simplify_eq. }
      split; [destruct cs, tr; cbn in *; by simplify_eq|].
      split; [apply same_store_refl|].
      exists dh, ih, []. rewrite app_nil_r.
      split; [done|]. repeat split; try done.
      destruct cs as [|c2 cs]; [|cbn in *; by simplify_eq].
      destruct tr; cbn in *; by simplify_eq. }
  cbn [fst new_inode_handle] in Hwalk.
  set (n := next_handle st) in *.
  destruct (match cs with [] => negb tr | _ => false end) eqn:Hlast.
  { assert (cs = []) as -> by (by destruct cs).
    simplify_eq. split; [done|]. split; [by repeat split|].
    exists dh, ih, [EvInodeOpen n]. split.
    { repeat split; cbn; try done; [|lia].
      rewrite lookup_insert_ne; [done|unfold n; lia]. }
    split; [lia|]. split; [done|]. split; [done|].
    split; [intros h; by cbn|].
    exists n, s. cbn. rewrite lookup_insert_eq.
    repeat split; try done; unfold n; lia. }
  subst cwd.
  unfold dir_close, dir_open, inode_close in Hwalk.
  cbn [open_dirs] in Hwalk. rewrite Hd in Hwalk.
  cbn [new_dir_handle drop_inode_handle drop_dir_handle disk free_map
       cwd_sector open_inodes open_dirs open_files next_handle trace faults]
    in Hwalk.
  match type of Hwalk with
  | resolve_components _ _ ?x _ _ _ _ = _ => set (st3 := x) in *
  end.
  assert (Hat3 : dir_at st3 (Some (S n)) (S n) n s).
  { repeat split; cbn.
    - by rewrite lookup_insert_eq.
    - rewrite lookup_delete_ne by (unfold n; lia). by rewrite lookup_insert_eq.
    - lia.
    - lia. }
  destruct (IH _ _ _ _ _ _ _ _ _ _ _ _ _ _ _ _ Hat3 Hwalk Hres)
    as (Hr & Hsame & dh' & ih' & evs & Hat' & Hle & Htr & Hlive & Hcl & Ho).
  split; [done|].
  split; [apply (same_store_trans _ st3); [by repeat split|done]|].
  exists dh', ih',
    ([EvInodeOpen n; EvDirClose dh; EvInodeClose ih; EvDirOpen (S n)] ++ evs)%list.
  split; [done|]. split; [unfold n in *; lia|].
  split.
  { rewrite Htr. cbn [trace st3]. by rewrite <- !app_assoc. }
  split; [by cbn|].
  split.
  { intros h. rewrite closes_of_app.
    unfold closes_of at 1. cbn.
    destruct (Nat.eqb_spec h dh) as [->|?]; [unfold n in *; lia|].
    destruct (Nat.eqb_spec h ih) as [->|?]; [unfold n in *; lia|].
    cbn. apply Hcl. }
  destruct cs as [|c2 cs]; [destruct tr; cbn in *; by simplify_eq|].
  by rewrite last_cons_cons.
Qed.

Lemma find_file_start_at st path :
  ∃ st1 cwd,
    find_file_start st path = (st1, cwd) ∧
    same_store st st1 ∧
    dir_at st1 cwd (S (next_handle st)) (next_handle st) (start_sector st path) ∧
    trace st1 = (trace st ++ [EvInodeOpen (next_handle st);
                              EvDirOpen (S (next_handle st))])%list.
Proof.
  unfold find_file_start, start_sector, dir_open_root.
  destruct (is_absolute path); cbn; eexists _, _; (split; [reflexivity|]);
    (split; [by repeat split|]); cbn.
  all: split; [|by rewrite <- app_assoc].
  all: repeat split; cbn; rewrite ?lookup_insert_eq; try done; lia.
Qed.

(** What [find_file] returns, against the outcome of the specification. *)
Lemma find_file_spec st path o psec fsec :
  resolve_path st path = (o, psec, fsec) →
  let res := find_file st path in
  find_code res = int_of_outcome o ∧
  same_store st (find_state res) ∧
  ∃ dh ih evs,
    dir_at (find_state res) (find_dir res) dh ih psec ∧
    (next_handle st <= ih)%nat ∧
    trace (find_state res)
    = (trace st ++ EvInodeOpen (next_handle st)
                :: EvDirOpen (S (next_handle st)) :: evs)%list ∧
    dirs_live 1 evs = Some 1%nat ∧
    (∀ h, closes_of h evs ≠ O → (h < ih)%nat) ∧
    match o with
    | FoundAsLast =>
        ∃ fh s, find_inode res = Some fh ∧ fsec = Some s ∧
                open_inodes (find_state res) !! fh = Some s ∧
                (dh < fh)%nat ∧ (fh < next_handle (find_state res))%nat ∧
                find_filename res = List.last (components path) EmptyString
    | NotFoundAsLast =>
        find_inode res = None ∧ fsec = None ∧
        find_filename res = List.last (components path) EmptyString
    | Invalid => fsec = None
    end.
Proof.
  intros Hres res. subst res. rewrite find_file_components.
  destruct (find_file_start_at st path) as (st1 & cwd & -> & Hsame & Hat & Htr).
  destruct (resolve_components _ _ st1 _ _ _ _)
    as [st' [[[r fn] cwd'] ni']] eqn:Hwalk.
  unfold resolve_path in Hres.
  assert (Hd : disk st1 = disk st) by apply Hsame.
  rewrite <- Hd in Hres.
  destruct (resolve_components_spec _ _ _ _ _ _ _ _ _ _ _ _ _ _ _ _ _
              Hat Hwalk Hres)
    as (Hr & Hsame' & dh & ih & evs & Hat' & Hle & Htr' & Hlive & Hcl & Ho).
  cbn. split; [done|]. split; [by apply (same_store_trans _ st1)|].
  exists dh, ih, evs. split; [done|]. split; [done|].
  split; [by rewrite Htr', Htr, <- app_assoc|]. done.
Qed.

(** ** The directory handles of the walk, one by one *)

Lemma dir_discipline_app evs1 : ∀ held evs2,
  dir_discipline held (evs1 ++ evs2)
  = match dir_discipline held evs1 with
    | Some held' => dir_discipline held' evs2
    | None => None
    end.
Proof.
  induction evs1 as [|e evs1 IH]; intros held evs2; [done|].
  destruct e as [h|h|h|h|h]; cbn [app dir_discipline]; try apply IH.
  - destruct held; [done|apply IH].
  - destruct held as [h'|]; [|done]. destruct (Nat.eqb h h'); [apply IH|done].
Qed.

Lemma resolve_components_discipline cs :
  ∀ tr st filename cwd ni result dh ih dsec (T0 T : list event)
    st' r fn cwd' ni',
  dir_at st cwd dh ih dsec →
  trace st = (T0 ++ T)%list →
  dir_discipline None T = Some (Some dh) →
  resolve_components cs tr st filename cwd ni result
  = (st', (r, fn, cwd', ni')) →
  ∃ T' dh',
    trace st' = (T0 ++ T')%list ∧ cwd' = Some dh' ∧
    dir_discipline None T' = Some (Some dh').
Proof.
  induction cs as [|c cs IH];
    intros tr st filename cwd ni result dh ih dsec T0 T st' r fn cwd' ni'
           Hat Htr Hdisc Hwalk.
  { cbn in Hwalk. simplify_eq. destruct Hat as (-> & _). by exists T, dh. }
  cbn [resolve_components] in Hwalk.
  destruct (NAME_MAX <? String.length c)%nat.
  { simplify_eq. destruct Hat as (-> & _). by exists T, dh. }
  rewrite (dir_lookup_at _ _ _ _ _ _ Hat) in Hwalk.
  pose proof Hat as (Hcwd & Hd & Hi & Hlt1 & Hlt2).
  destruct (entries_at (disk st) dsec !! c) as [s|] eqn:Hent.
  2:{ exists T, dh.
      assert (st' = st ∧ cwd' = cwd) as (-> & ->)
        by (destruct cs, tr; cbn in *; by simplify_eq).
      done. }
  cbn [fst new_inode_handle] in Hwalk.
  set (n := next_handle st) in *.
  destruct (match cs with [] => negb tr | _ => false end) eqn:Hlast.
  { simplify_eq. exists (T ++ [EvInodeOpen n])%list, dh.
    cbn [trace]. rewrite Htr, <- app_assoc.
    split; [done|]. split; [done|].
    by rewrite dir_discipline_app, Hdisc. }
  subst cwd.
  unfold dir_close, dir_open, inode_close in Hwalk.
  cbn [open_dirs] in Hwalk. rewrite Hd in Hwalk.
  cbn [new_dir_handle drop_inode_handle drop_dir_handle disk free_map
       cwd_sector open_inodes open_dirs open_files next_handle trace faults]
    in Hwalk.
  match type of Hwalk with
  | resolve_components _ _ ?x _ _ _ _ = _ => set (st3 := x) in *
  end.
  assert (Hat3 : dir_at st3 (Some (S n)) (S n) n s).
  { repeat split; cbn.
    - by rewrite lookup_insert_eq.
    - rewrite lookup_delete_ne by (unfold n; lia). by rewrite lookup_insert_eq.
    - lia.
    - lia. }
  set (evs := [EvInodeOpen n; EvDirClose dh; EvInodeClose ih;
               EvDirOpen (S n)]).
  apply (IH tr st3 c (Some (S n)) (Some n) result (S n) n s T0
            (T ++ evs)%list st' r fn cwd' ni' Hat3); [| |done].
  - cbn [trace st3]. rewrite Htr. by rewrite <- !app_assoc.
  - rewrite dir_discipline_app, Hdisc. unfold evs.
    cbn [dir_discipline]. by rewrite Nat.eqb_refl.
Qed.

(** C10.  Whatever the path and the working directory, [find_file] opens
    the starting directory before it looks at the path, never has more
    than one directory handle open while it walks, and hands back a
    directory handle that is not [NULL], is still open and was not closed
    during the call, whatever the result: the caller has to close it.
    The directory handles are followed one by one ([dir_discipline]):
    every directory the call opens is opened while it holds none, every
    directory it closes is the very one it holds at that moment, so each
    is closed before its replacement is opened, and the one it holds at
    the end is the one it hands back. *)
Theorem find_file_hands_back_open_dir (st : state) (path : string) :
  let res := find_file st path in
  ∃ dh ih evs,
    find_dir res = Some dh ∧
    open_dirs (find_state res) !! dh = Some ih ∧
    is_Some (open_inodes (find_state res) !! ih) ∧
    trace (find_state res)
    = (trace st ++ EvInodeOpen (next_handle st)
                :: EvDirOpen (S (next_handle st)) :: evs)%list ∧
    dirs_live 0 (EvInodeOpen (next_handle st)
                 :: EvDirOpen (S (next_handle st)) :: evs) = Some 1%nat ∧
    closes_of dh evs = O ∧ closes_of ih evs = O ∧
    dir_discipline None (EvInodeOpen (next_handle st)
                         :: EvDirOpen (S (next_handle st)) :: evs)
    = Some (Some dh).
Proof.
  intros res.
  destruct (resolve_path st path) as [[o psec] fsec] eqn:Hres.
  destruct (find_file_spec st path o psec fsec Hres)
    as (_ & _ & dh & ih & evs & Hat & _ & Htr & Hlive & Hcl & _).
  destruct Hat as (Hcwd & Hd & Hi & Hlt & _).
  assert (Hdisc :
    dir_discipline None (EvInodeOpen (next_handle st)
                         :: EvDirOpen (S (next_handle st)) :: evs)
    = Some (Some dh)).
  { subst res. unfold find_dir, find_state in *.
    rewrite find_file_components in *.
    destruct (find_file_start_at st path)
      as (st1 & cwd & Hstart & _ & Hat1 & Htr1).
    rewrite Hstart in *.
    destruct (resolve_components _ _ st1 _ _ _ _)
      as [st' [[[r fn] cwd'] ni']] eqn:Hwalk.
    cbn [fst snd] in *.
    destruct (resolve_components_discipline _ _ _ _ _ _ _ _ _ _
                (trace st) [EvInodeOpen (next_handle st);
                            EvDirOpen (S (next_handle st))]
                _ _ _ _ _ Hat1 Htr1 eq_refl Hwalk)
      as (T' & dh' & Htr' & Hcwd' & Hdisc').
    rewrite Htr in Htr'. apply app_inv_head in Htr'. subst T'.
    congruence. }
  exists dh, ih, evs. repeat split; try done.
  - destruct (closes_of dh evs) eqn:E; [done|].
    assert (dh < ih)%nat by (apply Hcl; lia). lia.
  - destruct (closes_of ih evs) eqn:E; [done|].
    assert (ih < ih)%nat by (apply Hcl; lia). lia.
Qed.

(** ** The outcome of the specification *)

Lemma resolve_too_long d tr cs : ∀ dir,
  Exists (λ c, (NAME_MAX < String.length c)%nat) cs →
  fst (fst (resolve d tr dir cs)) = Invalid.
Proof.
  induction cs as [|c cs IH]; intros dir Hex; [by apply Exists_nil in Hex|].
  cbn [resolve].
  destruct (Nat.ltb_spec NAME_MAX (String.length c)) as [|Hfit]; [done|].
  apply Exists_cons in Hex as [?|Hex]; [lia|].
  destruct cs as [|c2 cs]; [by apply Exists_nil in Hex|].
  destruct (entries_at d dir !! c); [by apply IH|done].
Qed.

Lemma resolve_descend d tr pre : ∀ start dir rest,
  all_fit pre → rest ≠ [] →
  descend d start pre = Some dir →
  resolve d tr start (pre ++ rest) = resolve d tr dir rest.
Proof.
  induction pre as [|c pre IH]; intros start dir rest Hfit Hrest Hdesc.
  { cbn in *. by simplify_eq. }
  apply Forall_cons in Hfit as [Hc Hfit].
  cbn [descend] in Hdesc. cbn [app resolve].
  destruct (Nat.ltb_spec NAME_MAX (String.length c)); [lia|].
  destruct (entries_at d start !! c) as [s|]; [|done].
  destruct (pre ++ rest)%list eqn:Happ.
  { apply app_eq_nil in Happ as [_ ->]. done. }
  rewrite <- Happ. by apply IH.
Qed.

Lemma dir_at_sector st cwd dh ih dsec :
  dir_at st cwd dh ih dsec → dir_sector st cwd = Some dsec.
Proof.
  intros (-> & Hd & Hi & _). unfold dir_sector, dir_get_inode.
  by rewrite Hd.
Qed.

(** C5.  [find_file] sorts every path into one of its three results.  A
    path with a component that is too long, or with no component at all,
    is invalid ([-1]).  When the components before the last all resolve:
    a miss on the last component, with nothing after it, is "not found,
    last part" ([0]), with the handle of the parent directory and a [NULL]
    inode; a hit on it is "found, last part" ([1]), with the handle of the
    parent directory and a handle on the inode found.  A miss on a
    component that is not the last is invalid.  In particular, when the
    root has a directory "a" and "a" has no entry "b", "/a/b/c" is
    invalid. *)
Theorem resolver_classifies (st : state) (path : string) :
  let res := find_file st path in
  let start := start_sector st path in
  (find_code res = -1 ∨ find_code res = 0 ∨ find_code res = 1) ∧
  (Exists (λ c, (NAME_MAX < String.length c)%nat) (components path) →
   find_code res = -1) ∧
  (components path = [] → find_code res = -1) ∧
  (∀ pre c dir,
     components path = (pre ++ [c])%list →
     ends_in_slash path = false →
     all_fit (components path) →
     descend (disk st) start pre = Some dir →
     match entries_at (disk st) dir !! c with
     | None =>
         find_code res = 0 ∧
         dir_sector (find_state res) (find_dir res) = Some dir ∧
         find_inode res = None
     | Some s =>
         find_code res = 1 ∧
         dir_sector (find_state res) (find_dir res) = Some dir ∧
         ∃ fh, find_inode res = Some fh ∧
               open_inodes (find_state res) !! fh = Some s
     end) ∧
  (∀ pre c post dir,
     components path = (pre ++ c :: post)%list →
     post ≠ [] →
     all_fit pre →
     descend (disk st) start pre = Some dir →
     entries_at (disk st) dir !! c = None →
     find_code res = -1) ∧
  (∀ sa,
     entries_at (disk st) ROOT_DIR_SECTOR !! "a" = Some sa →
     entries_at (disk st) sa !! "b" = None →
     find_code (find_file st "/a/b/c") = -1).
Proof.
  intros res start.
  assert (Hall : ∀ p o psec fsec,
             resolve_path st p = (o, psec, fsec) →
             find_code (find_file st p) = int_of_outcome o).
  { intros p o psec fsec Hres. by apply (find_file_spec st p o psec fsec). }
  assert (Hmiss : ∀ p pre c post dir,
     components p = (pre ++ c :: post)%list →
     post ≠ [] →
     all_fit pre →
     descend (disk st) (start_sector st p) pre = Some dir →
     entries_at (disk st) dir !! c = None →
     find_code (find_file st p) = -1).
  { intros p pre c post dir Hc Hpost Hfit Hdesc Hent.
    destruct (resolve_path st p) as [[o psec] fsec] eqn:Hres.
    rewrite (Hall _ _ _ _ Hres).
    unfold resolve_path in Hres.
    rewrite Hc, (resolve_descend _ _ _ _ dir) in Hres by done.
    cbn [resolve] in Hres. rewrite Hent in Hres.
    destruct (NAME_MAX <? String.length c)%nat, post; by simplify_eq. }
  assert (Hlong : ∀ p,
     Exists (λ c, (NAME_MAX < String.length c)%nat) (components p) →
     find_code (find_file st p) = -1).
  { intros p Hex.
    destruct (resolve_path st p) as [[o psec] fsec] eqn:Hres.
    rewrite (Hall _ _ _ _ Hres).
    pose proof (resolve_too_long (disk st) (ends_in_slash p) _
                  (start_sector st p) Hex) as Hinv.
    unfold resolve_path in Hres. rewrite Hres in Hinv. cbn in Hinv.
    by subst o. }
  destruct (resolve_path st path) as [[o psec] fsec] eqn:Hres.
  pose proof (find_file_spec st path o psec fsec Hres)
    as (Hr & _ & dh & ih & evs & Hat & _ & _ & _ & _ & Ho).
  fold res in Hr, Hat, Ho.
  split; [rewrite Hr; destruct o; cbn; auto|].
  split; [apply Hlong|].
  split.
  { intros Hc. unfold resolve_path in Hres. rewrite Hc in Hres.
    cbn in Hres. simplify_eq. done. }
  split.
  { intros pre c dir Hc Hends Hfit Hdesc.
    unfold resolve_path in Hres. fold start in Hres.
    rewrite Hc in Hres, Hfit.
    apply Forall_app in Hfit as [Hpre Hfit].
    apply Forall_cons in Hfit as [Hfit _].
    rewrite (resolve_descend _ _ _ _ dir) in Hres by done.
    cbn [resolve] in Hres. rewrite Hends in Hres. cbn [negb] in Hres.
    destruct (Nat.ltb_spec NAME_MAX (String.length c)); [lia|].
    destruct (entries_at (disk st) dir !! c) as [s|]; simplify_eq.
    - split; [done|]. split; [by apply (dir_at_sector _ _ dh ih)|].
      destruct Ho as (fh & s' & Hni & ? & Hfh & _). simplify_eq. eauto.
    - split; [done|]. split; [by apply (dir_at_sector _ _ dh ih)|].
      by destruct Ho as (? & _). }
  split; [apply Hmiss|].
  intros sa Ha Hb.
  destruct NAME_MAX as [|nm] eqn:Hnm.
  - apply Hlong. apply Exists_cons_hd. cbn. lia.
  - apply (Hmiss "/a/b/c" ["a"] "b" ["c"] sa); try done.
    + apply Forall_cons. split; [cbn; lia|done].
    + cbn. by rewrite Ha.
Qed.

(** ** What the collaborators leave alone *)

Lemma take_fault_cwd st st' b :
  take_fault st = (st', b) → cwd_sector st' = cwd_sector st.
Proof. unfold take_fault. destruct (faults st); intros; by simplify_eq. Qed.

Lemma inode_open_cwd st s st' ih :
  inode_open st s = (st', ih) → cwd_sector st' = cwd_sector st.
Proof. unfold inode_open. cbn. intros; by simplify_eq. Qed.

Lemma inode_close_cwd st i : cwd_sector (inode_close st i) = cwd_sector st.
Proof. by destruct i. Qed.

Lemma dir_open_cwd st i st' d :
  dir_open st i = (st', d) → cwd_sector st' = cwd_sector st.
Proof. unfold dir_open. destruct i; cbn; intros; by simplify_eq. Qed.

Lemma dir_close_cwd st d : cwd_sector (dir_close st d) = cwd_sector st.
Proof. destruct d; [|done]. cbn. by rewrite inode_close_cwd. Qed.

Lemma file_open_cwd st i st' f :
  file_open st i = (st', f) → cwd_sector st' = cwd_sector st.
Proof. unfold file_open. destruct i; cbn; intros; by simplify_eq. Qed.

Lemma dir_add_cwd st d name s st' b :
  dir_add st d name s = (st', b) → cwd_sector st' = cwd_sector st.
Proof.
  unfold dir_add. intros H.
  repeat case_match; simplify_eq; try done;
    match goal with H : take_fault _ = _ |- _ => apply take_fault_cwd in H end;
    done.
Qed.

Lemma dir_remove_cwd st d name st' b :
  dir_remove st d name = (st', b) → cwd_sector st' = cwd_sector st.
Proof. unfold dir_remove. intros H. by repeat case_match; simplify_eq. Qed.

Lemma inode_create_cwd st s len isdir st' b :
  inode_create st s len isdir = (st', b) → cwd_sector st' = cwd_sector st.
Proof.
  unfold inode_create. intros H.
  repeat case_match; simplify_eq;
    match goal with H : take_fault _ = _ |- _ => apply take_fault_cwd in H end;
    done.
Qed.

Lemma free_map_allocate_cwd st st' b s :
  free_map_allocate st = (st', b, s) → cwd_sector st' = cwd_sector st.
Proof.
  unfold free_map_allocate. intros H. by repeat case_match; simplify_eq.
Qed.

Lemma free_map_release_cwd st s :
  cwd_sector (free_map_release st s) = cwd_sector st.
Proof. done. Qed.

Lemma find_file_cwd st name st' res :
  find_file st name = (st', res) → cwd_sector st' = cwd_sector st.
Proof.
  intros H. destruct (resolve_path st name) as [[o psec] fsec] eqn:Hres.
  destruct (find_file_spec st name o psec fsec Hres) as (_ & Hsame & _).
  rewrite H in Hsame. apply Hsame.
Qed.

(** Turns every collaborator call among the hypotheses into what it does
    to [cwd_sector]. *)
Ltac cwd_frame :=
  repeat match goal with
  | H : find_file _ _ = (_, _) |- _ => apply find_file_cwd in H
  | H : inode_open _ _ = (_, _) |- _ => apply inode_open_cwd in H
  | H : dir_open _ _ = (_, _) |- _ => apply dir_open_cwd in H
  | H : file_open _ _ = (_, _) |- _ => apply file_open_cwd in H
  | H : dir_add _ _ _ _ = (_, _) |- _ => apply dir_add_cwd in H
  | H : dir_remove _ _ _ = (_, _) |- _ => apply dir_remove_cwd in H
  | H : inode_create _ _ _ _ = (_, _) |- _ => apply inode_create_cwd in H
  | H : free_map_allocate _ = (_, _, _) |- _ =>
      apply free_map_allocate_cwd in H
  end;
  cbn [fst snd];
  rewrite ?free_map_release_cwd, ?inode_close_cwd, ?dir_close_cwd in *;
  try congruence.

Lemma filesys_create_cwd st name size isdir :
  cwd_sector (fst (filesys_create st name size isdir)) = cwd_sector st.
Proof.
  unfold filesys_create. repeat case_match; simplify_eq; cwd_frame.
Qed.

Lemma filesys_open_cwd st name :
  cwd_sector (fst (filesys_open st name)) = cwd_sector st.
Proof. unfold filesys_open. repeat case_match; simplify_eq; cwd_frame. Qed.

Lemma filesys_remove_cwd st name :
  cwd_sector (fst (filesys_remove st name)) = cwd_sector st.
Proof. unfold filesys_remove. repeat case_match; simplify_eq; cwd_frame. Qed.

Lemma filesys_change_dir_cwd st path :
  snd (filesys_change_dir st path) = false →
  cwd_sector (fst (filesys_change_dir st path)) = cwd_sector st.
Proof.
  unfold filesys_change_dir. repeat case_match; simplify_eq; cbn; try done;
    intros _; cwd_frame.
Qed.

(** C9.  [cwd_sector] of the running thread is the same after a call of
    [filesys_create], [filesys_open] or [filesys_remove] as before it, and
    the same after a call of [filesys_change_dir] that returns [false]:
    only a successful [filesys_change_dir] writes it. *)
Theorem cwd_written_only_by_change_dir
    (st : state) (path : string) (size : Z) (isdir : bool) :
  cwd_sector (fst (filesys_create st path size isdir)) = cwd_sector st ∧
  cwd_sector (fst (filesys_open st path)) = cwd_sector st ∧
  cwd_sector (fst (filesys_remove st path)) = cwd_sector st ∧
  (snd (filesys_change_dir st path) = false →
   cwd_sector (fst (filesys_change_dir st path)) = cwd_sector st).
Proof.
  split; [apply filesys_create_cwd|].
  split; [apply filesys_open_cwd|].
  split; [apply filesys_remove_cwd|apply filesys_change_dir_cwd].
Qed.

(** ** Paths that end in a separator *)

Lemma ends_in_slash_slashes n : ends_in_slash (slashes (S n)) = true.
Proof.
  induction n as [|n IH]; [reflexivity|].
  change (slashes (S (S n))) with (String "/" (slashes (S n))).
  by rewrite ends_in_slash_cons.
Qed.

Lemma ends_in_slash_append p s :
  s ≠ EmptyString → ends_in_slash (p +:+ s) = ends_in_slash s.
Proof.
  intros Hs. induction p as [|c p IH]; [reflexivity|].
  rewrite append_cons, ends_in_slash_cons; [done|].
  destruct p; [by rewrite (eq_refl : EmptyString +:+ s = s)|].
  by rewrite append_cons.
Qed.

Lemma resolve_trailing d cs : ∀ dir,
  fst (fst (resolve d true dir cs)) = Invalid.
Proof.
  induction cs as [|c cs IH]; intros dir; [done|].
  cbn [resolve]. destruct (NAME_MAX <? String.length c)%nat; [done|].
  assert (match cs with [] => negb true | _ => false end = false) as ->
    by (by destruct cs).
  destruct (entries_at d dir !! c); [apply IH|done].
Qed.

Lemma find_file_trailing st path :
  ends_in_slash path = true → find_code (find_file st path) = -1.
Proof.
  intros Hends.
  destruct (resolve_path st path) as [[o psec] fsec] eqn:Hres.
  destruct (find_file_spec st path o psec fsec Hres) as (-> & _).
  pose proof (resolve_trailing (disk st) (components path)
                (start_sector st path)) as Hinv.
  unfold resolve_path in Hres. rewrite Hends in Hres.
  rewrite Hres in Hinv. cbn in Hinv. by subst o.
Qed.

(** ** The operations, by the result of [find_file] *)

Lemma filesys_create_not_absent st name size isdir :
  find_code (find_file st name) ≠ 0 →
  filesys_create st name size isdir
  = (dir_close (find_state (find_file st name))
               (find_dir (find_file st name)), false).
Proof.
  unfold filesys_create, find_code, find_state, find_dir, bool_of_int.
  destruct (find_file st name) as [st1 [[[r fn] dir] ino]]. cbn.
  intros Hr. by destruct (Z.eqb_spec r 0).
Qed.

Lemma filesys_open_not_found st name :
  find_code (find_file st name) ≠ 1 →
  snd (filesys_open st name) = OpenNull.
Proof.
  unfold filesys_open, find_code.
  destruct (find_file st name) as [st1 [[[r fn] dir] ino]]. cbn.
  intros Hr. by destruct (Z.eqb_spec r 1).
Qed.

Lemma filesys_remove_not_found st name :
  find_code (find_file st name) ≠ 1 →
  snd (filesys_remove st name) = false.
Proof.
  unfold filesys_remove, find_code.
  destruct (find_file st name) as [st1 [[[r fn] dir] ino]]. cbn.
  intros Hr. by destruct (Z.eqb_spec r 1).
Qed.

Lemma filesys_change_dir_not_found st name :
  find_code (find_file st name) ≠ 1 →
  snd (filesys_change_dir st name) = false.
Proof.
  unfold filesys_change_dir, find_code.
  destruct (find_file st name) as [st1 [[[r fn] dir] ino]]. cbn.
  intros Hr. by destruct (Z.eqb_spec r 1).
Qed.

Lemma find_file_same_components st p q :
  is_absolute q = is_absolute p →
  components q = components p →
  ends_in_slash q = ends_in_slash p →
  find_file st q = find_file st p.
Proof.
  intros Habs Hc Hends. rewrite !find_file_components.
  unfold find_file_start. by rewrite Habs, Hc, Hends.
Qed.

(** X19.  What separators do to [find_file], for every state and path.
    Separators that are repeated change nothing: two paths with the same
    components that are both absolute or both relative, and that both end
    or both do not end in a separator, get the same answer.  A separator
    at the end does: on a path followed by one or more separators
    [find_file] answers -1 whatever the path was, so [filesys_open]
    returns [NULL] on it and [filesys_create], [filesys_remove] and
    [filesys_change_dir] return [false]. *)
Theorem trailing_separator_is_invalid
    (st : state) (p : string) (n : nat) (size : Z) (isdir : bool) :
  (0 < n)%nat →
  let p' := p +:+ slashes n in
  find_code (find_file st p') = -1 ∧
  snd (filesys_open st p') = OpenNull ∧
  snd (filesys_create st p' size isdir) = false ∧
  snd (filesys_remove st p') = false ∧
  snd (filesys_change_dir st p') = false ∧
  (∀ q, is_absolute q = is_absolute p →
        components q = components p →
        ends_in_slash q = ends_in_slash p →
        find_file st q = find_file st p).
Proof.
  intros Hn p'.
  assert (Hinv : find_code (find_file st p') = -1).
  { apply find_file_trailing. unfold p'.
    destruct n as [|n]; [lia|].
    rewrite ends_in_slash_append; [apply ends_in_slash_slashes|done]. }
  split; [done|].
  split; [apply filesys_open_not_found; lia|].
  split; [rewrite filesys_create_not_absent by lia; done|].
  split; [apply filesys_remove_not_found; lia|].
  split; [apply filesys_change_dir_not_found; lia|].
  intros q. apply find_file_same_components.
Qed.

(** ** Changing the working directory *)

Lemma new_events_app st st' evs :
  trace st' = (trace st ++ evs)%list → new_events st st' = evs.
Proof.
  unfold new_events. intros ->.
  by rewrite skipn_app, skipn_all, Nat.sub_diag.
Qed.

Lemma dir_close_at st cwd dh ih dsec :
  dir_at st cwd dh ih dsec →
  dir_close st cwd = drop_inode_handle (drop_dir_handle st dh) ih.
Proof. intros (-> & Hd & _). unfold dir_close. by rewrite Hd. Qed.

Lemma closes_of_none h evs bound :
  (∀ h', closes_of h' evs ≠ O → (h' < bound)%nat) →
  (bound <= h)%nat → closes_of h evs = O.
Proof.
  intros Hcl Hle. destruct (closes_of h evs) eqn:E; [done|].
  assert (h < bound)%nat by (apply Hcl; lia). lia.
Qed.

(** [filesys_change_dir] against the outcome of the specification. *)
Lemma change_dir_resolve (st : state) (path : string) :
  let r := filesys_change_dir st path in
  let res := find_file st path in
  (snd r = true ↔
   ∃ psec s ino, resolve_path st path = (FoundAsLast, psec, Some s) ∧
                 disk st !! s = Some ino ∧ i_is_dir ino = true) ∧
  (∀ psec s,
     resolve_path st path = (FoundAsLast, psec, Some s) →
     (snd r = true →
      cwd_sector (fst r) = s ∧
      ∀ q, is_absolute q = false →
           resolve_path (fst r) q
           = resolve (disk st) (ends_in_slash q) s (components q)) ∧
     ∃ fh, find_inode res = Some fh ∧
           closes_of fh (new_events st (fst r)) = 1%nat ∧
           open_inodes (fst r) !! fh = None).
Proof.
  intros r res.
  destruct (resolve_path st path) as [[o psec] fsec] eqn:Hres.
  pose proof (find_file_spec st path o psec fsec Hres)
    as (Hr & Hsame & dh & ih & evs & Hat & Hle & Htr & _ & Hcl & Ho).
  fold res in Hr, Hsame, Hat, Htr, Ho.
  assert (Hnf : o ≠ FoundAsLast → snd r = false).
  { intros Ho'. apply filesys_change_dir_not_found. fold res. rewrite Hr.
    by destruct o. }
  destruct (decide (o = FoundAsLast)) as [->|Hne].
  2:{ split.
      - rewrite (Hnf Hne). split; [done|].
        intros (? & ? & ? & ? & _). by simplify_eq.
      - intros ? ? ?. by simplify_eq. }
  destruct Ho as (fh & s & Hfh & -> & Hopen & Hlt & Hnext & _).
  pose proof Hat as (Hcwd & Hd & Hi & Hlt' & _).
  subst r. unfold filesys_change_dir.
  unfold res, find_code, find_state, find_dir, find_inode in *.
  destruct (find_file st path) as [st1 [[[rc fn] dir] ino]].
  cbn [fst snd] in *. subst rc ino. cbn [int_of_outcome Z.eqb Pos.eqb].
  rewrite (dir_close_at _ _ _ _ _ Hat).
  set (st2 := drop_inode_handle (drop_dir_handle st1 dh) ih).
  assert (Hopen2 : open_inodes st2 !! fh = Some s).
  { cbn. rewrite lookup_delete_ne by lia. done. }
  assert (Hdisk : disk st1 = disk st) by apply Hsame.
  assert (Hdir : inode_is_dir st2 (Some fh)
                 = match disk st !! s with
                   | Some ino => i_is_dir ino
                   | None => false
                   end).
  { unfold inode_is_dir, inode_data. rewrite Hopen2.
    change (disk st2) with (disk st1). by rewrite Hdisk. }
  assert (Hnum : inode_get_inumber st2 (Some fh) = s).
  { unfold inode_get_inumber. by rewrite Hopen2. }
  assert (Hclosed : closes_of fh evs = O).
  { apply (closes_of_none _ _ ih); [done|lia]. }
  rewrite Hdir, Hnum. split.
  - destruct (disk st !! s) as [ino|] eqn:Hino.
    + destruct (i_is_dir ino) eqn:Hisdir; cbn.
      * split; [|done]. intros _. by exists psec, s, ino.
      * split; [done|]. intros (? & ? & ? & ? & ? & ?).
        simplify_eq. congruence.
    + cbn. split; [done|]. intros (? & ? & ? & ? & ? & ?).
      by simplify_eq.
  - intros psec' s' [= <- <-]. split.
    + destruct (disk st !! s) as [ino|]; [|done].
      destruct (i_is_dir ino); [|done]. cbn. intros _. split; [done|].
      intros q Hq. unfold resolve_path, start_sector. rewrite Hq. cbn.
      by rewrite Hdisk.
    + exists fh. split; [done|].
      assert (Hev : ∀ st3, trace st3 = trace st2 → open_inodes st3 = open_inodes st2 →
                closes_of fh (new_events st (inode_close st3 (Some fh))) = 1%nat
                ∧ open_inodes (inode_close st3 (Some fh)) !! fh = None).
      { intros st3 Ht3 Ho3. split.
        - rewrite (new_events_app st _
            (EvInodeOpen (next_handle st) :: EvDirOpen (S (next_handle st))
             :: evs ++ [EvDirClose dh; EvInodeClose ih; EvInodeClose fh])).
          + change (EvInodeOpen (next_handle st)
                    :: EvDirOpen (S (next_handle st))
                    :: evs ++ [EvDirClose dh; EvInodeClose ih; EvInodeClose fh])%list
              with ([EvInodeOpen (next_handle st);
                     EvDirOpen (S (next_handle st))]
                    ++ evs ++ [EvDirClose dh; EvInodeClose ih; EvInodeClose fh])%list.
            rewrite !closes_of_app, Hclosed. unfold closes_of. cbn.
            destruct (Nat.eqb_spec fh dh); [lia|].
            destruct (Nat.eqb_spec fh ih); [lia|].
            by rewrite Nat.eqb_refl.
          + cbn. rewrite Ht3. cbn. rewrite Htr.
            by rewrite <- !app_assoc.
        - cbn. by rewrite lookup_delete_eq. }
      destruct (disk st !! s) as [ino|]; [destruct (i_is_dir ino)|];
        cbn [fst snd]; by apply Hev.
Qed.

(** C8.  [filesys_change_dir] returns [true] exactly when [find_file]
    answers "found, last part" and the inode found is a directory.  It
    then stores the number of that inode in [cwd_sector], so that a
    relative path is resolved from that directory afterwards (and resolves
    there as the specification's resolver says).  Whenever [find_file]
    found an inode, directory or not, the handle on it is closed, once,
    before [filesys_change_dir] returns: only the number is kept. *)
Theorem change_dir_spec (st : state) (path : string) :
  let r := filesys_change_dir st path in
  let res := find_file st path in
  let found := inode_get_inumber (find_state res) (find_inode res) in
  (snd r = true ↔
   find_code res = 1 ∧
   inode_is_dir (find_state res) (find_inode res) = true) ∧
  (snd r = true →
   cwd_sector (fst r) = found ∧
   ∀ q, is_absolute q = false →
        start_sector (fst r) q = found ∧
        resolve_path (fst r) q
        = resolve (disk st) (ends_in_slash q) found (components q)) ∧
  (find_code res = 1 →
   ∃ fh, find_inode res = Some fh ∧
         closes_of fh (new_events st (fst r)) = 1%nat ∧
         open_inodes (fst r) !! fh = None).
Proof.
  intros r res found.
  destruct (resolve_path st path) as [[o psec] fsec] eqn:Hres.
  pose proof (find_file_spec st path o psec fsec Hres)
    as (Hr & Hsame & dh & ih & evs & Hat & _ & _ & _ & _ & Ho).
  pose proof (change_dir_resolve st path) as [Hiff Hfound].
  fold r res in Hiff, Hfound, Hr, Hsame, Ho. rewrite Hres in Hiff, Hfound.
  destruct (decide (o = FoundAsLast)) as [->|Hne].
  2:{ assert (Hcode : find_code res ≠ 1) by (rewrite Hr; by destruct o).
      assert (Hfalse : snd r = false)
        by by apply filesys_change_dir_not_found.
      rewrite Hfalse. split; [|done]. split; [done|]. by intros [? _]. }
  destruct Ho as (fh & s & Hfh & -> & Hopen & _).
  assert (Hdisk : disk (find_state res) = disk st) by apply Hsame.
  assert (Hnum : found = s).
  { unfold found, inode_get_inumber. by rewrite Hfh, Hopen. }
  assert (Hdir : inode_is_dir (find_state res) (find_inode res)
                 = match disk st !! s with
                   | Some ino => i_is_dir ino
                   | None => false
                   end).
  { unfold inode_is_dir, inode_data. by rewrite Hfh, Hopen, Hdisk. }
  destruct (Hfound psec s eq_refl) as [Hcwd Hclosed].
  rewrite Hnum, Hdir. split; [|split].
  - rewrite Hiff. split.
    + intros (? & ? & ino & [= <- <-] & -> & ->). by rewrite Hr.
    + intros [_ Hd]. destruct (disk st !! s) as [ino|] eqn:Hino; [|done].
      by exists psec, s, ino.
  - intros Hok. destruct (Hcwd Hok) as [Hc Hq]. split; [done|].
    intros q Habs. split; [|by apply Hq].
    unfold start_sector. by rewrite Habs.
  - intros _. exact Hclosed.
Qed.

(** ** Creating an entry, on the namespace *)

Lemma first_free_lookup fm : ∀ i,
  first_free fm = Some i → fm !! i = Some false.
Proof.
  induction fm as [|b fm IH]; intros i; [done|]. cbn [first_free].
  destruct b; [|by intros [= <-]].
  destruct (first_free fm) as [j|]; [|done].
  intros [= <-]. by apply IH.
Qed.

Lemma in_use_not_first_free fm s i :
  in_use fm s → first_free fm = Some i → s ≠ Z.of_nat i.
Proof.
  intros [Hs Hfm] Hfree%first_free_lookup ->.
  rewrite Nat2Z.id in Hfm. congruence.
Qed.

Lemma resolve_parent d tr cs : ∀ start o psec fsec,
  resolve d tr start cs = (o, psec, fsec) →
  psec = start ∨ ∃ x name, entries_at d x !! name = Some psec.
Proof.
  induction cs as [|c cs IH]; intros start o psec fsec Hres.
  { cbn in Hres. left. by simplify_eq. }
  cbn [resolve] in Hres.
  destruct (NAME_MAX <? String.length c)%nat; [left; by simplify_eq|].
  destruct (entries_at d start !! c) as [s|] eqn:Hent;
    [|left; by simplify_eq].
  destruct (match cs with [] => negb tr | _ => false end);
    [left; by simplify_eq|].
  destruct (IH _ _ _ _ Hres) as [->|?]; [|by right].
  right. eauto.
Qed.

Lemma resolve_not_found d tr cs : ∀ start psec fsec,
  resolve d tr start cs = (NotFoundAsLast, psec, fsec) →
  entries_at d psec !! List.last cs EmptyString = None.
Proof.
  induction cs as [|c cs IH]; intros start psec fsec Hres; [done|].
  cbn [resolve] in Hres.
  destruct (NAME_MAX <? String.length c)%nat; [done|].
  destruct (entries_at d start !! c) as [s|] eqn:Hent.
  - destruct cs as [|c2 cs]; [by destruct tr|].
    rewrite last_cons_cons. by apply (IH s _ fsec).
  - destruct cs as [|c2 cs]; [|done].
    destruct tr; cbn in Hres; by simplify_eq.
Qed.

(** The namespace after an entry [name ↦ snew] has been added to the
    directory at [psec] and an inode written at the fresh sector [snew]:
    a path that resolved to "not found, last part" with that name in that
    directory now resolves to the new inode. *)
Lemma resolve_after_create d d' tr snew cs :
  ∀ start psec fsec,
  resolve d tr start cs = (NotFoundAsLast, psec, fsec) →
  (∀ x name s, entries_at d x !! name = Some s → s ≠ snew) →
  start ≠ snew →
  entries_at d' psec
  = <[List.last cs EmptyString := snew]> (entries_at d psec) →
  (∀ x, x ≠ psec → x ≠ snew → entries_at d' x = entries_at d x) →
  resolve d' tr start cs = (FoundAsLast, psec, Some snew).
Proof.
  induction cs as [|c cs IH];
    intros start psec fsec Hres Hfresh Hstart Hpsec Hother; [done|].
  pose proof (resolve_not_found _ _ _ _ _ _ Hres) as Habsent.
  cbn [resolve] in Hres |- *.
  destruct (NAME_MAX <? String.length c)%nat; [done|].
  destruct (entries_at d start !! c) as [s|] eqn:Hent.
  - destruct cs as [|c2 cs]; [by destruct tr|].
    rewrite last_cons_cons in Hpsec, Habsent.
    assert (entries_at d' start !! c = Some s) as ->.
    { destruct (decide (start = psec)) as [->|Hne].
      - rewrite Hpsec, lookup_insert_ne; [done|]. congruence.
      - by rewrite Hother. }
    apply (IH s psec fsec); eauto.
  - destruct cs as [|c2 cs]; [|done].
    destruct tr; cbn in Hres; simplify_eq.
    cbn in Hpsec. by rewrite Hpsec, lookup_insert_eq.
Qed.

(** ** Creating an entry, on the code *)

Lemma dir_close_disk st d : disk (dir_close st d) = disk st.
Proof.
  destruct d as [d|]; [|done]. cbn. by destruct (open_dirs st !! d).
Qed.

Lemma dir_close_free_map st d : free_map (dir_close st d) = free_map st.
Proof.
  destruct d as [d|]; [|done]. cbn. by destruct (open_dirs st !! d).
Qed.

Lemma dir_add_at st dir dh ih ds name s :
  dir = Some dh →
  open_dirs st !! dh = Some ih →
  open_inodes st !! ih = Some ds →
  entries_at (disk st) ds !! name = None →
  faults st = [] →
  dir_add st dir name s
  = (set_disk st
       (<[ds := mk_inode_disk
                  (i_is_dir (default (mk_inode_disk true 0 ∅) (disk st !! ds)))
                  (i_length (default (mk_inode_disk true 0 ∅) (disk st !! ds)))
                  (<[name := s]> (entries_at (disk st) ds))]> (disk st)),
     true).
Proof.
  intros -> Hd Hi Hent Hf. unfold dir_add, dir_sector, dir_get_inode.
  rewrite Hd, Hi, Hent. unfold take_fault. rewrite Hf.
  unfold entries_at. by destruct (disk st !! ds).
Qed.

Lemma filesys_create_succeeds st name size isdir psec i :
  resolve_path st name = (NotFoundAsLast, psec, None) →
  faults st = [] →
  first_free (free_map st) = Some i →
  psec ≠ Z.of_nat i →
  let r := filesys_create st name size isdir in
  snd r = true ∧
  cwd_sector (fst r) = cwd_sector st ∧
  entries_at (disk (fst r)) psec
  = <[List.last (components name) EmptyString := Z.of_nat i]>
      (entries_at (disk st) psec) ∧
  (∀ x, x ≠ psec → x ≠ Z.of_nat i → disk (fst r) !! x = disk st !! x) ∧
  ∃ ino, disk (fst r) !! Z.of_nat i = Some ino ∧ i_is_dir ino = isdir.
Proof.
  intros Hres Hfaults Hfree Hne r.
  pose proof (find_file_spec st name _ _ _ Hres)
    as (Hr & Hsame & dh & ih & evs & Hat & Hle & _ & _ & _ & Hino & _ & Hfn).
  pose proof (resolve_not_found _ _ _ _ _ _ Hres) as Habsent.
  destruct Hsame as (Hdisk & Hfm & Hcwd & Hflt & _).
  destruct Hat as (Hdir & Hd & Hi & Hlt & Hnext).
  subst r. unfold filesys_create.
  unfold find_code, find_state, find_dir, find_inode, find_filename in *.
  destruct (find_file st name) as [st1 [[[rc fn] dir] ino]].
  cbn [fst snd] in *. subst rc ino dir fn.
  cbn [int_of_outcome bool_of_int Z.eqb negb].
  unfold free_map_allocate. rewrite Hfm, Hfree. cbn [negb].
  set (snew := Z.of_nat i) in *.
  set (fn := List.last (components name) EmptyString) in *.
  unfold inode_create, take_fault.
  cbn [faults set_free_map]. rewrite Hflt, Hfaults. cbn [negb].
  match goal with
  | |- context [inode_open ?x snew] => set (st3 := x) in *
  end.
  destruct (if isdir then _ else _) as [st4 success] eqn:Hpop.
  assert (Hst4 : success = true ∧
                 open_dirs st4 !! dh = Some ih ∧
                 open_inodes st4 !! ih = Some psec ∧
                 faults st4 = [] ∧
                 cwd_sector st4 = cwd_sector st ∧
                 (∀ x, x ≠ snew → disk st4 !! x = disk st !! x) ∧
                 ∃ ino, disk st4 !! snew = Some ino ∧ i_is_dir ino = isdir).
  { destruct isdir.
    - unfold inode_open, dir_open in Hpop. subst st3.
      cbn [new_inode_handle new_dir_handle fst snd set_disk set_free_map
           disk free_map cwd_sector open_inodes open_dirs open_files
           next_handle trace faults] in Hpop.
      set (n := next_handle st1) in *.
      erewrite (dir_add_at _ _ (S n) n snew) in Hpop;
        [|reflexivity|cbn; by rewrite lookup_insert_eq..
         |cbn; unfold entries_at; by rewrite lookup_insert_eq
         |cbn; congruence].
      unfold entries_at at 1 in Hpop.
      unfold set_disk in Hpop.
      cbn [disk free_map cwd_sector open_inodes open_dirs
           open_files next_handle trace faults] in Hpop.
      rewrite !lookup_insert_eq in Hpop.
      cbn [default from_option id i_is_dir i_length i_entries] in Hpop.
      rewrite insert_insert_eq in Hpop.
      assert (Hnum : ∀ d f tr' nh,
                inode_get_inumber
                  (mk_state d f (cwd_sector st1)
                     (<[n:=snew]> (open_inodes st1))
                     (<[S n:=n]> (open_dirs st1)) (open_files st1) nh tr'
                     (faults st1))
                  (dir_get_inode
                     (mk_state d f (cwd_sector st1)
                        (<[n:=snew]> (open_inodes st1))
                        (<[S n:=n]> (open_dirs st1)) (open_files st1) nh tr'
                        (faults st1)) (Some dh)) = psec).
      { intros. cbn. rewrite lookup_insert_ne by (unfold n; lia).
        rewrite Hd. cbn. rewrite lookup_insert_ne by (unfold n; lia).
        by rewrite Hi. }
      rewrite Hnum in Hpop. clear Hnum.
      erewrite (dir_add_at _ _ (S n) n snew) in Hpop;
        [|reflexivity|cbn; by rewrite lookup_insert_eq..
         |cbn; unfold entries_at; rewrite lookup_insert_eq; cbn;
          by rewrite lookup_insert_ne
         |cbn; congruence].
      unfold entries_at at 1 in Hpop.
      unfold set_disk, dir_close, inode_close, drop_inode_handle,
        drop_dir_handle in Hpop.
      cbn [disk free_map cwd_sector open_inodes open_dirs
           open_files next_handle trace faults] in Hpop.
      rewrite !lookup_insert_eq in Hpop.
      cbn [default from_option id i_is_dir i_length i_entries
           disk free_map cwd_sector open_inodes open_dirs
           open_files next_handle trace faults andb] in Hpop.
      rewrite insert_insert_eq in Hpop.
      injection Hpop as <- <-. cbn.
      split; [done|].
      split; [rewrite lookup_delete_ne, lookup_insert_ne by lia; done|].
      split; [rewrite lookup_delete_ne, lookup_insert_ne by lia; done|].
      split; [congruence|]. split; [done|]. split.
      + intros x Hx. rewrite lookup_insert_ne by done. by rewrite Hdisk.
      + eexists. by rewrite lookup_insert_eq.
    - injection Hpop as <- <-. cbn.
      split; [done|]. split; [done|]. split; [done|].
      split; [congruence|]. split; [done|]. split.
      + intros x Hx. rewrite lookup_insert_ne by done. by rewrite Hdisk.
      + eexists. by rewrite lookup_insert_eq. }
  clear Hpop.
  destruct Hst4 as (-> & Hd4 & Hi4 & Hf4 & Hcwd4 & Hdisk4 & ino & Hino & Hisdir).
  assert (Hent4 : entries_at (disk st4) psec = entries_at (disk st) psec).
  { unfold entries_at. by rewrite Hdisk4. }
  rewrite (dir_add_at _ _ dh ih psec) by (done || by rewrite Hent4).
  cbn [andb negb fst snd].
  rewrite dir_close_cwd, dir_close_disk. cbn [set_disk disk cwd_sector].
  split; [done|]. split; [congruence|]. split.
  { unfold entries_at at 1. rewrite lookup_insert_eq. cbn.
    by rewrite Hent4. }
  split.
  { intros x Hx1 Hx2. rewrite lookup_insert_ne by done. by apply Hdisk4. }
  exists ino. by rewrite lookup_insert_ne.
Qed.

Lemma filesys_open_found st name dh ih psec fh s ino :
  find_code (find_file st name) = 1 →
  dir_at (find_state (find_file st name)) (find_dir (find_file st name))
         dh ih psec →
  find_inode (find_file st name) = Some fh →
  open_inodes (find_state (find_file st name)) !! fh = Some s →
  fh ≠ ih →
  disk (find_state (find_file st name)) !! s = Some ino →
  if i_is_dir ino then ∃ d, snd (filesys_open st name) = OpenDir d
  else ∃ f, snd (filesys_open st name) = OpenFile f.
Proof.
  unfold filesys_open, find_code, find_state, find_dir, find_inode.
  destruct (find_file st name) as [st1 [[[rc fn] dir] inode]].
  cbn [fst snd]. intros -> Hat -> Hopen Hne Hino. cbn [Z.eqb Pos.eqb].
  rewrite (dir_close_at _ _ _ _ _ Hat).
  assert (inode_is_dir (drop_inode_handle (drop_dir_handle st1 dh) ih)
            (Some fh) = i_is_dir ino) as ->.
  { unfold inode_is_dir, inode_data. cbn.
    rewrite lookup_delete_ne by done. by rewrite Hopen, Hino. }
  destruct (i_is_dir ino); cbn; eauto.
Qed.

(** X20.  Creating, then opening.  On a well-formed file system
    ([fs_ok]: the root, the working directory and every sector named by a
    directory entry are marked in use), when [find_file] answers "not
    found, last part" for the path, a sector is free and no write fails,
    [filesys_create] returns [true] and [filesys_open] of the same path
    afterwards returns a directory handle if a directory was asked for and
    a file handle otherwise.  On any file system, when [find_file] answers
    "found, last part", [filesys_create] returns [false] and leaves the
    free map and the inodes on disk, hence the namespace, as they were. *)
Theorem create_then_open
    (st : state) (path : string) (size : Z) (isdir : bool) :
  (find_code (find_file st path) = 0 →
   fs_ok st → faults st = [] → is_Some (first_free (free_map st)) →
   snd (filesys_create st path size isdir) = true ∧
   if isdir
   then ∃ d, snd (filesys_open (fst (filesys_create st path size isdir))
                    path) = OpenDir d
   else ∃ f, snd (filesys_open (fst (filesys_create st path size isdir))
                    path) = OpenFile f) ∧
  (find_code (find_file st path) = 1 →
   snd (filesys_create st path size isdir) = false ∧
   free_map (fst (filesys_create st path size isdir)) = free_map st ∧
   disk (fst (filesys_create st path size isdir)) = disk st).
Proof.
  destruct (resolve_path st path) as [[o psec] fsec] eqn:Hres.
  pose proof (find_file_spec st path _ _ _ Hres) as (Hcode & _).
  split.
  - intros Hzero (Hroot & Hcwd & Hentries) Hfaults [i Hfree].
    assert (o = NotFoundAsLast) as ->
      by (rewrite Hcode in Hzero; by destruct o).
    pose proof (find_file_spec st path _ _ _ Hres)
      as (_ & _ & _ & _ & _ & _ & _ & _ & _ & _ & _ & -> & _).
    assert (Hstart : in_use (free_map st) (start_sector st path)).
    { unfold start_sector. by destruct (is_absolute path). }
    assert (Hpsec : in_use (free_map st) psec).
    { destruct (resolve_parent _ _ _ _ _ _ _ Hres) as [->|(x & nm & Hx)];
        [done|by apply (Hentries x nm)]. }
    pose proof (in_use_not_first_free _ _ _ Hpsec Hfree) as Hne.
    destruct (filesys_create_succeeds st path size isdir psec i
                Hres Hfaults Hfree Hne)
      as (Hok & Hcwd' & Hent' & Hother & ino & Hino & Hisdir).
    split; [done|].
    set (st' := fst (filesys_create st path size isdir)) in *.
    assert (Hres' : resolve_path st' path
                    = (FoundAsLast, psec, Some (Z.of_nat i))).
    { unfold resolve_path in *.
      assert (start_sector st' path = start_sector st path) as ->.
      { unfold start_sector. by rewrite Hcwd'. }
      apply (resolve_after_create (disk st) _ _ _ _ _ _ None Hres).
      - intros x nm s Hx. apply (in_use_not_first_free (free_map st));
          [by apply (Hentries x nm)|done].
      - by apply (in_use_not_first_free (free_map st)).
      - done.
      - intros x Hx1 Hx2. unfold entries_at. by rewrite Hother. }
    pose proof (find_file_spec st' path _ _ _ Hres')
      as (Hr & Hsame & dh & ih & evs & Hat & _ & _ & _ & _ & fh & s & Hfh
          & [= <-] & Hopen & Hlt & _).
    assert (Hdisk : disk (find_state (find_file st' path)) = disk st')
      by apply Hsame.
    pose proof (filesys_open_found st' path dh ih psec fh (Z.of_nat i) ino
                  Hr Hat Hfh Hopen) as Hopened.
    rewrite Hisdir in Hopened. apply Hopened.
    + destruct Hat as (_ & _ & _ & ? & _). lia.
    + by rewrite Hdisk.
  - intros Hone.
    pose proof (find_file_spec st path _ _ _ Hres) as (_ & Hsame & _).
    rewrite filesys_create_not_absent by (rewrite Hone; done).
    cbn [fst snd]. rewrite dir_close_free_map, dir_close_disk.
    split; [done|]. split; apply Hsame.
Qed.

(** * Further properties of the code *)

(** ** The parser *)

Lemma field_drop_field s : field s +:+ drop_field s = s.
Proof.
  induction s as [|c r IH]; [reflexivity|]. cbn [field drop_field].
  destruct (Ascii.eqb c "/"); [reflexivity|].
  by rewrite append_cons, IH.
Qed.

Lemma field_no_slash s : no_slash (field s) = true.
Proof.
  induction s as [|c r IH]; [reflexivity|]. cbn [field].
  destruct (Ascii.eqb c "/") eqn:Hc; [reflexivity|].
  cbn [no_slash]. by rewrite Hc, IH.
Qed.

Lemma take_chars_length n : ∀ s, (String.length (take_chars n s) <= n)%nat.
Proof.
  induction n as [|n IH]; intros [|c r]; cbn; try lia.
  specialize (IH r). lia.
Qed.

Lemma copy_part_cases src dst :
  (String.length dst <= NAME_MAX)%nat →
  (copy_part src dst = (true, dst +:+ field src, drop_field src) ∧
   (String.length dst + String.length (field src) <= NAME_MAX)%nat) ∨
  (∃ s, copy_part src dst
        = (false,
           dst +:+ take_chars (NAME_MAX - String.length dst) (field src), s)).
Proof.
  intros Hdst.
  destruct (le_lt_dec (String.length dst + String.length (field src))
              NAME_MAX) as [Hle|Hlt].
  - left. split; [by apply copy_part_ok|done].
  - right. by apply copy_part_too_long.
Qed.

(** X1.  When [get_next_part] returns 1, the name it wrote is not empty,
    has no separator in it and is at most [NAME_MAX] characters long; what
    it consumed is exactly the leading separators followed by that name
    (the path after its leading separators is the name followed by the
    new cursor); and the new cursor is at the end of the string or at a
    separator, strictly further than the old one. *)
Theorem get_next_part_consumes (part src part' src' : string) :
  get_next_part part src = (1, part', src') →
  part' ≠ EmptyString ∧
  no_slash part' = true ∧
  (String.length part' <= NAME_MAX)%nat ∧
  skip_slashes src = part' +:+ src' ∧
  (src' = EmptyString ∨ ∃ r, src' = String "/" r) ∧
  (String.length src' < String.length src)%nat.
Proof.
  unfold get_next_part.
  destruct (skip_slashes_shape src) as [->|(c & r & Hs & Hne)]; [done|].
  rewrite Hs.
  destruct (copy_part_cases (String c r) EmptyString) as [[-> Hlen]|[s ->]];
    [cbn; lia| |done].
  change (EmptyString +:+ field (String c r)) with (field (String c r)).
  intros Heq.
  assert (Hp : part' = field (String c r)) by congruence.
  assert (Hc : src' = drop_field (String c r)) by congruence.
  clear Heq. subst part' src'.
  split.
  { cbn [field]. by destruct (Ascii.eqb_spec c "/"). }
  split; [apply field_no_slash|].
  split; [cbn [String.length] in Hlen; lia|].
  split; [by rewrite field_drop_field|].
  split; [apply drop_field_shape|].
  pose proof (drop_field_length c r Hne).
  pose proof (skip_slashes_length src). rewrite Hs in *. lia.
Qed.

(** X2.  [get_next_part] never writes more than [NAME_MAX] characters
    to [part]: its result is -1, 0 or 1; on 0 it leaves both the buffer
    and the cursor alone; on -1 the buffer holds at most [NAME_MAX]
    characters and the cursor is where it was; on 1 the name is at most
    [NAME_MAX] characters long.  The terminator always fits in the
    [NAME_MAX + 1] bytes of the buffer. *)
Theorem get_next_part_bounds (part src : string) :
  let r := get_next_part part src in
  (fst (fst r) = 0 ∧ snd (fst r) = part ∧ snd r = src) ∨
  (fst (fst r) = -1 ∧ (String.length (snd (fst r)) <= NAME_MAX)%nat ∧
   snd r = src) ∨
  (fst (fst r) = 1 ∧ (String.length (snd (fst r)) <= NAME_MAX)%nat ∧
   (String.length (snd r) < String.length src)%nat).
Proof.
  intros r. subst r.
  destruct (components src) as [|c cs] eqn:Hc.
  { left. by rewrite get_next_part_end. }
  right. destruct (le_lt_dec (String.length c) NAME_MAX) as [Hfit|Hlong].
  - right.
    destruct (get_next_part_success part src c cs Hc Hfit)
      as (src' & -> & _ & Hlen & _). by cbn.
  - left. rewrite (get_next_part_too_long part src c cs Hc Hlong). cbn.
    split; [done|]. split; [apply take_chars_length|done].
Qed.

(** ** Handles opened and closed by the walk *)

Lemma opens_of_app h evs1 evs2 :
  opens_of h (evs1 ++ evs2) = (opens_of h evs1 + opens_of h evs2)%nat.
Proof. unfold opens_of. by rewrite List.filter_app, length_app. Qed.

(** Appending the events of one more step to a balanced trace. *)
Lemma balanced_step kept kept' T evs :
  balanced kept T →
  (∀ h : nat,
     (opens_of h T + opens_of h evs <= 1)%nat ∧
     ((if bool_decide (h ∈ kept) then O else opens_of h T)
      + closes_of h evs)%nat
     = if bool_decide (h ∈ kept') then O
       else (opens_of h T + opens_of h evs)%nat) →
  balanced kept' (T ++ evs).
Proof.
  intros Hbal Hstep h. destruct (Hbal h) as [_ Hc].
  destruct (Hstep h) as [Ho Hc'].
  rewrite opens_of_app, closes_of_app, Hc. done.
Qed.

Lemma opens_of_cons h e evs :
  opens_of h (e :: evs)
  = ((if is_open_of h e then 1 else 0) + opens_of h evs)%nat.
Proof. unfold opens_of. cbn. by destruct (is_open_of h e). Qed.

Lemma closes_of_cons h e evs :
  closes_of h (e :: evs)
  = ((if is_close_of h e then 1 else 0) + closes_of h evs)%nat.
Proof. unfold closes_of. cbn. by destruct (is_close_of h e). Qed.

Lemma opens_of_nil h : opens_of h [] = O.
Proof. reflexivity. Qed.

Lemma closes_of_nil h : closes_of h [] = O.
Proof. reflexivity. Qed.

(** Counts the opens and closes of a handle in an explicit list of
    events, then decides the comparisons of handles that are left. *)
Ltac count_events :=
  rewrite ?opens_of_app, ?closes_of_app, ?opens_of_cons, ?closes_of_cons,
    ?opens_of_nil, ?closes_of_nil;
  cbn [is_open_of is_close_of].

Ltac handle_cases :=
  count_events;
  repeat match goal with
  | |- context [Nat.eqb ?a ?b] => destruct (Nat.eqb_spec a b); subst
  | |- context [bool_decide (?a ∈ ?l)] =>
      let Hin := fresh "Hin" in
      destruct (bool_decide_reflect (a ∈ l)) as [Hin|Hin];
      rewrite ?elem_of_cons, ?elem_of_nil in Hin
  end;
  try lia.

Lemma resolve_components_balanced cs :
  ∀ tr st filename cwd ni dh ih dsec (T0 T : list event) lo st' r fn cwd' ni',
  dir_at st cwd dh ih dsec →
  trace st = (T0 ++ T)%list →
  balanced [dh; ih] T →
  opens_of dh T = 1%nat → opens_of ih T = 1%nat →
  (∀ h, opens_of h T ≠ O → (lo <= h < next_handle st)%nat) →
  resolve_components cs tr st filename cwd ni (-1)
  = (st', (r, fn, cwd', ni')) →
  ∃ T' dh' ih',
    trace st' = (T0 ++ T')%list ∧
    cwd' = Some dh' ∧ open_dirs st' !! dh' = Some ih' ∧
    opens_of dh' T' = 1%nat ∧ opens_of ih' T' = 1%nat ∧
    (∀ h, opens_of h T' ≠ O → (lo <= h < next_handle st')%nat) ∧
    if r =? 1
    then ∃ fh, ni' = Some fh ∧ opens_of fh T' = 1%nat ∧
               balanced [dh'; ih'; fh] T'
    else balanced [dh'; ih'] T'.
Proof.
  induction cs as [|c cs IH];
    intros tr st filename cwd ni dh ih dsec T0 T lo st' r fn cwd' ni'
           Hat Htr Hbal Hodh Hoih Hbound Hwalk.
  { cbn in Hwalk. simplify_eq. destruct Hat as (-> & Hd & _).
    exists T, dh, ih. cbn [Z.eqb]. by split_and!. }
  cbn [resolve_components] in Hwalk.
  destruct (NAME_MAX <? String.length c)%nat.
  { simplify_eq. destruct Hat as (-> & Hd & _).
    exists T, dh, ih. cbn [Z.eqb]. by split_and!. }
  rewrite (dir_lookup_at _ _ _ _ _ _ Hat) in Hwalk.
  pose proof Hat as (Hcwd & Hd & Hi & Hlt1 & Hlt2).
  destruct (entries_at (disk st) dsec !! c) as [s|] eqn:Hent.
  2:{ exists T, dh, ih.
      assert (st' = st ∧ cwd' = cwd ∧ (r =? 1) = false) as (-> & -> & ->).
      { destruct cs, tr; cbn in *; by simplify_eq. }
      by split_and!. }
  cbn [fst new_inode_handle] in Hwalk.
  set (n := next_handle st) in *.
  assert (Hfresh : ∀ h, (n <= h)%nat → opens_of h T = O).
  { intros h Hh. destruct (opens_of h T) eqn:E; [done|].
    assert (lo <= h < n)%nat by (apply Hbound; lia). lia. }
  assert (Hlo : (lo <= n)%nat).
  { assert (lo <= dh < n)%nat by (apply Hbound; lia). lia. }
  destruct (match cs with [] => negb tr | _ => false end) eqn:Hlast.
  { simplify_eq. exists (T ++ [EvInodeOpen n])%list, dh, ih.
    cbn [trace open_dirs Z.eqb Pos.eqb]. rewrite Htr, <- app_assoc.
    split; [done|]. split; [done|]. split; [done|].
    pose proof (Hfresh n).
    split; [handle_cases|]. split; [handle_cases|].
    split.
    { intros h. cbn [next_handle]. pose proof (Hbound h). handle_cases. }
    exists n. split; [done|].
    split; [handle_cases|].
    apply (balanced_step [dh; ih]); [done|].
    intros h. destruct (Hbal h) as [Hle _].
    pose proof (Hfresh h). split; handle_cases. }
  subst cwd.
  unfold dir_close, dir_open, inode_close in Hwalk.
  cbn [open_dirs] in Hwalk. rewrite Hd in Hwalk.
  cbn [new_dir_handle drop_inode_handle drop_dir_handle disk free_map
       cwd_sector open_inodes open_dirs open_files next_handle trace faults]
    in Hwalk.
  match type of Hwalk with
  | resolve_components _ _ ?x _ _ _ _ = _ => set (st3 := x) in *
  end.
  assert (Hat3 : dir_at st3 (Some (S n)) (S n) n s).
  { repeat split; cbn.
    - by rewrite lookup_insert_eq.
    - rewrite lookup_delete_ne by (unfold n; lia). by rewrite lookup_insert_eq.
    - lia.
    - lia. }
  set (evs := [EvInodeOpen n; EvDirClose dh; EvInodeClose ih;
               EvDirOpen (S n)]).
  apply (IH tr st3 c (Some (S n)) (Some n) (S n) n s T0 (T ++ evs)%list
            lo st' r fn cwd' ni' Hat3); [| | | | |done].
  - cbn [trace st3]. rewrite Htr. by rewrite <- !app_assoc.
  - apply (balanced_step [dh; ih]); [done|].
    intros h. destruct (Hbal h) as [Hle _].
    pose proof (Hfresh h). unfold evs. split; handle_cases.
  - pose proof (Hfresh (S n)). unfold evs. handle_cases.
  - pose proof (Hfresh n). unfold evs. handle_cases.
  - intros h. cbn [next_handle st3]. unfold evs.
    pose proof (Hbound h). handle_cases.
Qed.

Lemma find_file_handles (st : state) (path : string) :
  let res := find_file st path in
  let evs := new_events st (find_state res) in
  ∃ dh ih,
    find_dir res = Some dh ∧
    dir_get_inode (find_state res) (find_dir res) = Some ih ∧
    (∀ h, opens_of h evs ≠ O →
          (next_handle st <= h < next_handle (find_state res))%nat) ∧
    opens_of dh evs = 1%nat ∧ opens_of ih evs = 1%nat ∧
    if find_code res =? 1
    then ∃ fh, find_inode res = Some fh ∧ opens_of fh evs = 1%nat ∧
               balanced [dh; ih; fh] evs
    else balanced [dh; ih] evs.
Proof.
  intros res evs. subst res evs. rewrite find_file_components.
  destruct (find_file_start_at st path)
    as (st1 & cwd & -> & _ & Hat & Htr).
  set (n := next_handle st) in *.
  destruct (resolve_components _ _ st1 _ _ _ _)
    as [st' [[[r fn] cwd'] ni']] eqn:Hwalk.
  pose proof Hat as (_ & _ & _ & _ & Hnext).
  set (T := [EvInodeOpen n; EvDirOpen (S n)]) in *.
  assert (Hbal0 : balanced [S n; n] T).
  { intros h. unfold T. split; handle_cases. }
  assert (Ho1 : opens_of (S n) T = 1%nat) by (unfold T; handle_cases).
  assert (Ho2 : opens_of n T = 1%nat) by (unfold T; handle_cases).
  assert (Hb0 : ∀ h, opens_of h T ≠ O → (n <= h < next_handle st1)%nat).
  { intros h. unfold T. handle_cases. }
  destruct (resolve_components_balanced _ _ _ _ _ _ _ _ _ (trace st) T n
              _ _ _ _ _ Hat Htr Hbal0 Ho1 Ho2 Hb0 Hwalk)
    as (T' & dh & ih & Htr' & -> & Hd & Hodh & Hoih & Hbound & Hbal).
  unfold find_dir, find_state, find_code, find_inode, dir_get_inode.
  cbn [fst snd]. rewrite (new_events_app st st' T' Htr').
  by exists dh, ih.
Qed.

(** X3.  The handles of a call of [find_file].  No handle is handed out
    twice.  The directory handle it returns, the inode handle that
    directory handle wraps and, when the result is 1, the handle on the
    inode found are open and have not been closed.  Every other handle
    opened during the walk has been closed exactly once, and nothing that
    was open before the call has been closed. *)
Theorem find_file_balanced (st : state) (path : string) :
  let res := find_file st path in
  let evs := new_events st (find_state res) in
  ∃ dh ih,
    find_dir res = Some dh ∧
    dir_get_inode (find_state res) (find_dir res) = Some ih ∧
    (∀ h, opens_of h evs ≠ O →
          (next_handle st <= h < next_handle (find_state res))%nat) ∧
    if find_code res =? 1
    then ∃ fh, find_inode res = Some fh ∧ balanced [dh; ih; fh] evs
    else balanced [dh; ih] evs.
Proof.
  intros res evs.
  destruct (find_file_handles st path)
    as (dh & ih & Hdh & Hih & Hbound & _ & _ & Hbal).
  fold res evs in Hdh, Hih, Hbound, Hbal.
  exists dh, ih. split; [done|]. split; [done|]. split; [done|].
  destruct (find_code res =? 1); [|done].
  destruct Hbal as (fh & ? & _ & ?). by exists fh.
Qed.

(** What [find_file] tells about its handles, its events and its
    result, in one place. *)
Lemma find_file_summary st path :
  let res := find_file st path in
  let E := new_events st (find_state res) in
  ∃ dh ih psec,
    dir_at (find_state res) (find_dir res) dh ih psec ∧
    trace (find_state res) = (trace st ++ E)%list ∧
    (∀ h, opens_of h E ≠ O →
          (next_handle st <= h < next_handle (find_state res))%nat) ∧
    opens_of dh E = 1%nat ∧ opens_of ih E = 1%nat ∧
    ((find_code res = 1 ∧
      ∃ fh s, find_inode res = Some fh ∧
              open_inodes (find_state res) !! fh = Some s ∧
              (dh < fh)%nat ∧ opens_of fh E = 1%nat ∧
              balanced [dh; ih; fh] E) ∨
     (find_code res = 0 ∧ find_inode res = None ∧ balanced [dh; ih] E) ∨
     (find_code res = -1 ∧ balanced [dh; ih] E)).
Proof.
  intros res E.
  destruct (resolve_path st path) as [[o psec] fsec] eqn:Hres.
  pose proof (find_file_spec st path o psec fsec Hres)
    as (Hr & _ & dh & ih & evs & Hat & _ & Htr & _ & _ & Ho).
  pose proof (find_file_handles st path)
    as (dh' & ih' & Hdh & Hih & Hbound & Hodh & Hoih & Hbal).
  fold res in Hr, Hat, Htr, Ho, Hdh, Hih, Hbound, Hodh, Hoih, Hbal.
  fold E in Hbound, Hodh, Hoih, Hbal.
  pose proof Hat as (Hcwd & Hd & Hi & Hlt & Hnext).
  assert (dh' = dh) as -> by congruence.
  assert (ih' = ih) as ->.
  { unfold dir_get_inode in Hih. rewrite Hcwd in Hih. congruence. }
  assert (HE : E = (EvInodeOpen (next_handle st)
                    :: EvDirOpen (S (next_handle st)) :: evs)%list).
  { unfold E. by apply new_events_app. }
  exists dh, ih, psec. split; [done|]. split; [by rewrite HE|].
  split; [done|]. split; [done|]. split; [done|].
  rewrite Hr in Hbal |- *. destruct o; cbn in Hbal |- *.
  - right. right. done.
  - right. left. destruct Ho as (? & _). done.
  - left. split; [done|].
    destruct Ho as (fh & s & Hfh & _ & Hopen & Hlt' & _).
    destruct Hbal as (fh' & Hfh' & Hofh & Hb).
    assert (fh' = fh) as -> by congruence.
    by exists fh, s.
Qed.

Lemma change_dir_events st path dh ih psec E :
  dir_at (find_state (find_file st path)) (find_dir (find_file st path))
         dh ih psec →
  trace (find_state (find_file st path)) = (trace st ++ E)%list →
  new_events st (fst (filesys_change_dir st path))
  = (E ++ EvDirClose dh :: EvInodeClose ih
       :: match find_inode (find_file st path) with
          | Some fh => [EvInodeClose fh]
          | None => []
          end)%list.
Proof.
  unfold filesys_change_dir, find_state, find_dir, find_inode.
  destruct (find_file st path) as [st1 [[[rc fn] dir] ino]]. cbn [fst snd].
  intros Hat Htr. apply new_events_app.
  rewrite (dir_close_at _ _ _ _ _ Hat).
  destruct (rc =? 1);
    [destruct (inode_is_dir _ ino)|]; destruct ino; cbn;
    rewrite Htr, <- ?app_assoc; done.
Qed.

(** X4.  Whenever [find_file] answers 0 or 1, [filesys_change_dir]
    leaves no handle behind and closes nothing twice: every handle opened
    during the call is closed exactly once before it returns, and no
    other handle is closed. *)
Theorem change_dir_releases_handles (st : state) (path : string) :
  find_code (find_file st path) ≠ -1 →
  balanced [] (new_events st (fst (filesys_change_dir st path))).
Proof.
  intros Hcode.
  destruct (find_file_summary st path)
    as (dh & ih & psec & Hat & Htr & _ & Hodh & Hoih & Hcases).
  rewrite (change_dir_events st path dh ih psec _ Hat Htr).
  pose proof Hat as (_ & _ & _ & Hlt & _).
  destruct Hcases as [[_ (fh & s & -> & _ & Hlt' & Hofh & Hbal)]
                     |[[_ [-> Hbal]]|[? _]]]; [| |done].
  - apply (balanced_step [dh; ih; fh]); [done|].
    intros h. destruct (Hbal h) as [Hle _]. split; handle_cases.
  - apply (balanced_step [dh; ih]); [done|].
    intros h. destruct (Hbal h) as [Hle _]. split; handle_cases.
Qed.

(** X5.  The handles of [filesys_open].  When [find_file] answers 0,
    [filesys_open] returns [NULL] and has closed every handle it opened,
    each once.  When [find_file] answers 1, it returns a directory handle
    if the inode found is a directory and a file handle otherwise; the
    handle returned wraps the inode handle that [find_file] found, which
    is still open; and these two are the only handles of the call left
    open: every other one has been closed exactly once. *)
Theorem open_handles (st : state) (path : string) :
  let res := find_file st path in
  let r := filesys_open st path in
  let E := new_events st (fst r) in
  (find_code res = 0 → snd r = OpenNull ∧ balanced [] E) ∧
  (find_code res = 1 →
   ∃ h fh s,
     find_inode res = Some fh ∧
     open_inodes (fst r) !! fh = Some s ∧
     (if inode_is_dir (fst r) (Some fh)
      then snd r = OpenDir h ∧ open_dirs (fst r) !! h = Some fh
      else snd r = OpenFile h ∧ open_files (fst r) !! h = Some fh) ∧
     balanced [h; fh] E).
Proof.
  intros res r E.
  destruct (find_file_summary st path)
    as (dh & ih & psec & Hat & Htr & Hbound & Hodh & Hoih & Hcases).
  fold res in Hat, Htr, Hbound, Hodh, Hoih, Hcases.
  pose proof Hat as (_ & _ & _ & Hlt & _).
  subst E r. unfold filesys_open.
  unfold res, find_code, find_state, find_dir, find_inode in *.
  destruct (find_file st path) as [st1 [[[rc fn] dir] ino]].
  cbn [fst snd] in *.
  rewrite (dir_close_at _ _ _ _ _ Hat).
  set (E1 := new_events st st1) in *.
  split.
  - intros ->. cbn [Z.eqb].
    destruct Hcases as [[? _]|[[_ [-> Hbal]]|[? _]]]; [done| |done].
    cbn [inode_close snd fst]. split; [done|].
    rewrite (new_events_app st _ (E1 ++ [EvDirClose dh; EvInodeClose ih]))
      by (cbn; rewrite Htr, <- !app_assoc; done).
    apply (balanced_step [dh; ih]); [done|].
    intros h. destruct (Hbal h) as [Hle _]. split; handle_cases.
  - intros ->. cbn [Z.eqb Pos.eqb].
    destruct Hcases as [[_ (fh & s & -> & Hopen & Hlt' & Hofh & Hbal)]
                       |[[? _]|[? _]]]; [|done|done].
    set (st2 := drop_inode_handle (drop_dir_handle st1 dh) ih).
    set (n := next_handle st1).
    assert (Hfresh : opens_of n E1 = O).
    { destruct (opens_of n E1) eqn:Ho; [done|].
      assert (next_handle st <= n < n)%nat by (apply Hbound; lia). lia. }
    assert (Hn : (dh < n ∧ ih < n ∧ fh < n)%nat).
    { pose proof (Hbound dh). pose proof (Hbound ih).
      pose proof (Hbound fh). unfold n. lia. }
    assert (Hopen2 : open_inodes st2 !! fh = Some s).
    { cbn. rewrite lookup_delete_ne by lia. done. }
    assert (Hsame : ∀ st3, open_inodes st3 = open_inodes st2 →
                           disk st3 = disk st2 →
              inode_is_dir st3 (Some fh) = inode_is_dir st2 (Some fh)).
    { intros st3 Ho Hd. unfold inode_is_dir, inode_data. by rewrite Ho, Hd. }
    exists n, fh, s. split; [done|].
    destruct (inode_is_dir st2 (Some fh)) eqn:Hdir.
    + cbn [dir_open new_dir_handle fst snd]. cbn [open_inodes].
      split; [done|].
      match goal with
      | |- context [inode_is_dir ?x (Some fh)] =>
          rewrite (Hsame x eq_refl eq_refl)
      end.
      split; [cbn; by rewrite lookup_insert_eq|].
      rewrite (new_events_app st _
                 (E1 ++ [EvDirClose dh; EvInodeClose ih; EvDirOpen n]))
        by (cbn; rewrite Htr, <- !app_assoc; done).
      apply (balanced_step [dh; ih; fh]); [done|].
      intros h. destruct (Hbal h) as [Hle _]. split; handle_cases.
    + cbn [file_open new_file_handle fst snd]. cbn [open_inodes].
      split; [done|].
      match goal with
      | |- context [inode_is_dir ?x (Some fh)] =>
          rewrite (Hsame x eq_refl eq_refl)
      end.
      split; [cbn; by rewrite lookup_insert_eq|].
      rewrite (new_events_app st _
                 (E1 ++ [EvDirClose dh; EvInodeClose ih; EvFileOpen n]))
        by (cbn; rewrite Htr, <- !app_assoc; done).
      apply (balanced_step [dh; ih; fh]); [done|].
      intros h. destruct (Hbal h) as [Hle _]. split; handle_cases.
Qed.

(** ** Operations that only look *)

Lemma find_file_same_store st path r :
  find_file st path = r → same_store st (fst r).
Proof.
  intros <-. destruct (resolve_path st path) as [[o psec] fsec] eqn:Hres.
  by destruct (find_file_spec st path o psec fsec Hres) as (_ & ? & _).
Qed.

Lemma inode_close_same_disk st i : same_disk st (inode_close st i).
Proof. by destruct i. Qed.

Lemma dir_close_same_disk st d : same_disk st (dir_close st d).
Proof.
  destruct d as [d|]; [|done]. unfold dir_close.
  by destruct (open_dirs st !! d).
Qed.

Lemma same_disk_trans st1 st2 st3 :
  same_disk st1 st2 → same_disk st2 st3 → same_disk st1 st3.
Proof. intros (? & ? & ?) (? & ? & ?). repeat split; congruence. Qed.

Lemma lookups_same_disk (st : state) (path : string) :
  same_disk st (find_state (find_file st path)) ∧
  same_disk st (fst (filesys_open st path)) ∧
  same_disk st (fst (filesys_change_dir st path)).
Proof.
  assert (Hfind : same_disk st (fst (find_file st path))).
  { destruct (find_file_same_store st path _ eq_refl) as (? & ? & ? & ? & ?).
    by repeat split. }
  split; [done|].
  unfold filesys_open, filesys_change_dir.
  destruct (find_file st path) as [st1 [[[rc fn] dir] ino]].
  cbn [fst] in Hfind.
  pose proof (dir_close_same_disk st1 dir) as Hclose.
  split.
  - destruct (rc =? 1); [destruct (inode_is_dir _ ino)|].
    + destruct ino; cbn; apply (same_disk_trans _ st1); try done;
        apply (same_disk_trans _ (dir_close st1 dir)); done.
    + destruct ino; cbn; apply (same_disk_trans _ st1); try done;
        apply (same_disk_trans _ (dir_close st1 dir)); done.
    + cbn. apply (same_disk_trans _ st1); [done|].
      apply (same_disk_trans _ (dir_close st1 dir)); [done|].
      apply inode_close_same_disk.
  - destruct (rc =? 1); [destruct (inode_is_dir _ ino)|]; cbn [fst];
      apply (same_disk_trans _ st1); try done;
      (eapply same_disk_trans; [|apply inode_close_same_disk]);
      apply (same_disk_trans _ (dir_close st1 dir)); done.
Qed.

(** X6.  Resolving, opening and changing directory only look at the
    file system: [find_file], [filesys_open] and [filesys_change_dir]
    leave every inode on disk and the free map as they were (and use up
    no pending fault), whatever the path and whatever they return. *)
Theorem lookups_leave_disk (st : state) (path : string) :
  same_disk st (find_state (find_file st path)) ∧
  same_disk st (fst (filesys_open st path)) ∧
  same_disk st (fst (filesys_change_dir st path)).
Proof. apply lookups_same_disk. Qed.

(** X7.  What [find_file] answers depends on the inodes on disk and on
    the directory it starts from, and on nothing else: in two states with
    the same disk, and with the same working directory unless the path is
    absolute, it gives the same result, stops in the same directory and,
    when the result is 1, finds the same inode.  In particular an
    absolute path resolves alike from every working directory, and the
    handles that happen to be open play no part. *)
Theorem find_file_depends_on_namespace (st1 st2 : state) (path : string) :
  disk st1 = disk st2 →
  is_absolute path = true ∨ cwd_sector st1 = cwd_sector st2 →
  let r1 := find_file st1 path in
  let r2 := find_file st2 path in
  find_code r1 = find_code r2 ∧
  dir_sector (find_state r1) (find_dir r1)
  = dir_sector (find_state r2) (find_dir r2) ∧
  (find_code r1 = 1 →
   inode_get_inumber (find_state r1) (find_inode r1)
   = inode_get_inumber (find_state r2) (find_inode r2)).
Proof.
  intros Hdisk Hstart r1 r2.
  assert (Hres : resolve_path st1 path = resolve_path st2 path).
  { unfold resolve_path, start_sector. rewrite Hdisk.
    destruct Hstart as [->| ->]; [done|]. done. }
  destruct (resolve_path st2 path) as [[o psec] fsec] eqn:Hres2.
  pose proof (find_file_spec st1 path o psec fsec Hres)
    as (Hr1 & _ & dh1 & ih1 & ? & Hat1 & _ & _ & _ & _ & Ho1).
  pose proof (find_file_spec st2 path o psec fsec Hres2)
    as (Hr2 & _ & dh2 & ih2 & ? & Hat2 & _ & _ & _ & _ & Ho2).
  fold r1 in Hr1, Hat1, Ho1. fold r2 in Hr2, Hat2, Ho2.
  split; [congruence|]. split.
  - by rewrite (dir_at_sector _ _ _ _ _ Hat1), (dir_at_sector _ _ _ _ _ Hat2).
  - rewrite Hr1. intros Hone. destruct o; try done.
    destruct Ho1 as (fh1 & s1 & -> & ? & Hs1 & _).
    destruct Ho2 as (fh2 & s2 & -> & ? & Hs2 & _).
    unfold inode_get_inumber. rewrite Hs1, Hs2. cbn. congruence.
Qed.

(** ** Removing *)

(** X8.  [filesys_remove] refuses, and changes nothing on disk, whenever
    [find_file] does not answer 1, and whenever the inode found is the
    one whose number is the caller's [cwd_sector]: the working directory
    is never removed, by whatever path it is named. *)
Theorem remove_refuses (st : state) (path : string) :
  let res := find_file st path in
  find_code res ≠ 1 ∨
  inode_get_inumber (find_state res) (find_inode res) = cwd_sector st →
  snd (filesys_remove st path) = false ∧
  same_disk st (fst (filesys_remove st path)).
Proof.
  intros res Hwhy.
  assert (Hfind : same_store st (fst (find_file st path)))
    by apply (find_file_same_store st path _ eq_refl).
  subst res. unfold filesys_remove, find_code, find_state, find_inode in *.
  destruct (find_file st path) as [st1 [[[rc fn] dir] ino]].
  cbn [fst snd] in *.
  destruct Hfind as (Hd & Hf & Hc & Hfl & _).
  assert ((rc =? 1) && negb (inode_get_inumber st1 ino =? cwd_sector st1)
          = false) as ->.
  { destruct Hwhy as [Hne| ->].
    - by destruct (Z.eqb_spec rc 1).
    - rewrite Hc, Z.eqb_refl. by destruct (rc =? 1). }
  cbn [fst snd]. split; [done|].
  apply (same_disk_trans _ st1); [by repeat split|].
  apply dir_close_same_disk.
Qed.

Lemma split_path_no_slash s :
  Forall (λ c, no_slash c = true) (split_path s).
Proof.
  induction s as [|c r IH]; cbn [split_path]; [by repeat constructor|].
  destruct (Ascii.eqb c "/") eqn:Hc; [by constructor|].
  destruct (split_path r) as [|f fs].
  - constructor; [|done]. cbn. by rewrite Hc.
  - apply Forall_cons in IH as [Hf Hfs]. constructor; [|done].
    cbn [no_slash]. by rewrite Hc, Hf.
Qed.

Lemma components_no_slash s c :
  In c (components s) → no_slash c = true.
Proof.
  unfold components. intros [Hin _]%List.filter_In.
  pose proof (split_path_no_slash s) as Hall.
  rewrite List.Forall_forall in Hall. by apply Hall.
Qed.

Lemma no_slash_ends s : no_slash s = true → ends_in_slash s = false.
Proof.
  induction s as [|c r IH]; [done|]. cbn [no_slash].
  intros [Hc Hr]%andb_true_iff. destruct r as [|c' r'].
  - cbn. by destruct (Ascii.eqb c "/").
  - rewrite ends_in_slash_cons by done. by apply IH.
Qed.

Lemma no_slash_relative s : no_slash s = true → is_absolute s = false.
Proof.
  destruct s as [|c r]; [done|]. cbn.
  by destruct (Ascii.eqb c "/").
Qed.

(** A path that is one bare name: relative, without a separator. *)
Lemma bare_name name :
  components name = [name] →
  is_absolute name = false ∧ ends_in_slash name = false.
Proof.
  intros Hc.
  assert (no_slash name = true).
  { apply (components_no_slash name). rewrite Hc. by left. }
  split; [by apply no_slash_relative|by apply no_slash_ends].
Qed.

(** X9.  Removing by a bare name works: when the path is a single name
    without separators that fits in [NAME_MAX] characters, the working
    directory has an entry of that name and the entry does not name the
    working directory itself, [filesys_remove] returns [true]; the entry
    is gone from the working directory, whose other entries are as
    before; no other inode has changed; and the name then resolves to
    "not found, last part". *)
Theorem remove_bare_name (st : state) (name : string) (s : Z) :
  components name = [name] →
  (String.length name <= NAME_MAX)%nat →
  entries_at (disk st) (cwd_sector st) !! name = Some s →
  s ≠ cwd_sector st →
  let r := filesys_remove st name in
  snd r = true ∧
  entries_at (disk (fst r)) (cwd_sector st)
  = delete name (entries_at (disk st) (cwd_sector st)) ∧
  (∀ x, x ≠ cwd_sector st → disk (fst r) !! x = disk st !! x) ∧
  find_code (find_file (fst r) name) = 0.
Proof.
  intros Hc Hfit Hent Hne r.
  destruct (bare_name name Hc) as [Habs Hends].
  assert (Hres : resolve_path st name
                 = (FoundAsLast, cwd_sector st, Some s)).
  { unfold resolve_path, start_sector. rewrite Habs, Hends, Hc.
    cbn [resolve negb].
    destruct (Nat.ltb_spec NAME_MAX (String.length name)); [lia|].
    by rewrite Hent. }
  pose proof (find_file_spec st name _ _ _ Hres)
    as (Hr & Hsame & dh & ih & evs & Hat & _ & _ & _ & _ & fh & s' & Hfh
        & [= <-] & Hopen & _).
  destruct Hsame as (Hdisk & Hfm & Hcwd & _).
  pose proof Hat as (Hdir & Hd & Hi & _).
  assert (Hcwd' : cwd_sector (fst r) = cwd_sector st)
    by apply filesys_remove_cwd.
  assert (Hfinal : snd r = true ∧
            disk (fst r)
            = <[cwd_sector st :=
                  mk_inode_disk
                    (i_is_dir (default (mk_inode_disk true 0 ∅)
                                 (disk st !! cwd_sector st)))
                    (i_length (default (mk_inode_disk true 0 ∅)
                                 (disk st !! cwd_sector st)))
                    (delete name (entries_at (disk st) (cwd_sector st)))]>
                (disk st) ∧
            free_map (fst r) = free_map st).
  { subst r. unfold filesys_remove.
    unfold find_code, find_state, find_dir, find_inode in *.
    destruct (find_file st name) as [st1 [[[rc fn] dir] ino]].
    cbn [fst snd] in *. subst rc ino dir.
    assert (inode_get_inumber st1 (Some fh) = s) as ->
      by (unfold inode_get_inumber; by rewrite Hopen).
    rewrite Hcwd. cbn [int_of_outcome Z.eqb Pos.eqb andb].
    destruct (Z.eqb_spec s (cwd_sector st)); [done|]. cbn [negb].
    unfold dir_remove, dir_sector, dir_get_inode. rewrite Hd, Hi, Hdisk.
    unfold entries_at in Hent |- *.
    destruct (disk st !! cwd_sector st) as [ino|] eqn:Hino; [|done].
    rewrite Hent. cbn [fst snd].
    rewrite dir_close_disk, dir_close_free_map. cbn. done. }
  destruct Hfinal as (Hok & Hdisk' & Hfm').
  split; [done|].
  assert (Hent' : entries_at (disk (fst r)) (cwd_sector st)
                  = delete name (entries_at (disk st) (cwd_sector st))).
  { unfold entries_at at 1. by rewrite Hdisk', lookup_insert_eq. }
  split; [done|]. split.
  { intros x Hx. by rewrite Hdisk', lookup_insert_ne. }
  assert (Hres' : resolve_path (fst r) name
                  = (NotFoundAsLast, cwd_sector st, None)).
  { unfold resolve_path, start_sector. rewrite Habs, Hends, Hc, Hcwd'.
    cbn [resolve negb].
    destruct (Nat.ltb_spec NAME_MAX (String.length name)); [lia|].
    by rewrite Hent', lookup_delete_eq. }
  by destruct (find_file_spec (fst r) name _ _ _ Hres') as (-> & _).
Qed.

(** ** Creating: the failures that leave nothing behind *)

Lemma allocate_release fm i :
  first_free fm = Some i →
  <[Z.to_nat (Z.of_nat i) := false]> (<[i := true]> fm) = fm.
Proof.
  intros Hfree%first_free_lookup.
  rewrite Nat2Z.id, list_insert_insert_eq. by apply list_insert_id.
Qed.

(** X10.  [filesys_create] returns [false] and leaves every inode on
    disk and the whole free map as they were when [find_file] does not
    answer 0 (invalid path, or the name exists), when no sector is free,
    and when [inode_create] fails: in that last case the sector it had
    allocated is given back, and the free map is the one it started
    with. *)
Theorem create_early_failure
    (st : state) (path : string) (size : Z) (isdir : bool) :
  find_code (find_file st path) ≠ 0 ∨
  first_free (free_map st) = None ∨
  (∃ fs, faults st = true :: fs) →
  snd (filesys_create st path size isdir) = false ∧
  disk (fst (filesys_create st path size isdir)) = disk st ∧
  free_map (fst (filesys_create st path size isdir)) = free_map st.
Proof.
  intros Hwhy.
  pose proof (find_file_same_store st path _ eq_refl)
    as (Hdisk & Hfm & _ & Hfl & _).
  destruct (Z.eq_dec (find_code (find_file st path)) 0) as [Hzero|Hne].
  2:{ rewrite filesys_create_not_absent by done. cbn [fst snd].
      by rewrite dir_close_disk, dir_close_free_map. }
  destruct Hwhy as [?|Hwhy]; [done|].
  destruct (find_file_summary st path)
    as (dh & ih & psec & (Hdir & _) & _).
  unfold filesys_create, find_code, find_state, find_dir in *.
  destruct (find_file st path) as [st1 [[[rc fn] dir] ino]].
  cbn [fst snd] in *. subst rc dir. cbn [bool_of_int Z.eqb negb].
  unfold free_map_allocate. rewrite Hfm.
  destruct (first_free (free_map st)) as [i|] eqn:Hfree; [|done].
  destruct Hwhy as [?|[fs Hfaults]]; [done|].
  cbn [negb]. unfold inode_create, take_fault.
  cbn [faults set_free_map]. rewrite Hfl, Hfaults. cbn.
  by rewrite allocate_release.
Qed.

(** ** Creating: what a successful call leaves *)

Lemma filesys_create_result st name size isdir psec i dh ih :
  resolve_path st name = (NotFoundAsLast, psec, None) →
  faults st = [] →
  first_free (free_map st) = Some i →
  psec ≠ Z.of_nat i →
  dir_at (find_state (find_file st name)) (find_dir (find_file st name))
         dh ih psec →
  let r := filesys_create st name size isdir in
  let st1 := find_state (find_file st name) in
  let n := next_handle st1 in
  let snew := Z.of_nat i in
  snd r = true ∧
  free_map (fst r) = <[i := true]> (free_map st) ∧
  disk (fst r) !! snew
  = Some (mk_inode_disk isdir size
            (if isdir then <[".." := psec]> (<["." := snew]> ∅) else ∅)) ∧
  i_is_dir <$> disk (fst r) !! psec
  = Some (i_is_dir (default (mk_inode_disk true 0 ∅) (disk st !! psec))) ∧
  trace (fst r)
  = (trace st1
     ++ (if isdir
         then [EvInodeOpen n; EvDirOpen (S n); EvDirClose (S n);
               EvInodeClose n]
         else [])
     ++ [EvDirClose dh; EvInodeClose ih])%list.
Proof.
  intros Hres Hfaults Hfree Hne Hat r st1' n' snew'.
  pose proof (find_file_spec st name _ _ _ Hres)
    as (Hr & Hsame & _ & _ & _ & _ & _ & _ & _ & _ & Hino & _ & Hfn).
  pose proof (resolve_not_found _ _ _ _ _ _ Hres) as Habsent.
  destruct Hsame as (Hdisk & Hfm & Hcwd & Hflt & _).
  destruct Hat as (Hdir & Hd & Hi & Hlt & Hnext).
  subst r st1' n' snew'. unfold filesys_create.
  unfold find_code, find_state, find_dir, find_inode, find_filename in *.
  destruct (find_file st name) as [st1 [[[rc fn] dir] ino]].
  cbn [fst snd] in *. subst rc ino dir fn.
  cbn [int_of_outcome bool_of_int Z.eqb negb].
  unfold free_map_allocate. rewrite Hfm, Hfree. cbn [negb].
  set (snew := Z.of_nat i) in *.
  set (fn := List.last (components name) EmptyString) in *.
  unfold inode_create, take_fault.
  cbn [faults set_free_map]. rewrite Hflt, Hfaults. cbn [negb].
  match goal with
  | |- context [inode_open ?x snew] => set (st3 := x) in *
  end.
  set (n := next_handle st1) in *.
  destruct (if isdir then _ else _) as [st4 success] eqn:Hpop.
  assert (Hst4 : success = true ∧
                 open_dirs st4 !! dh = Some ih ∧
                 open_inodes st4 !! ih = Some psec ∧
                 faults st4 = [] ∧
                 free_map st4 = <[i := true]> (free_map st) ∧
                 disk st4 !! psec = disk st !! psec ∧
                 disk st4 !! snew
                 = Some (mk_inode_disk isdir size
                           (if isdir
                            then <[".." := psec]> (<["." := snew]> ∅)
                            else ∅)) ∧
                 trace st4
                 = (trace st1
                    ++ (if isdir
                        then [EvInodeOpen n; EvDirOpen (S n);
                              EvDirClose (S n); EvInodeClose n]
                        else []))%list).
  { destruct isdir.
    - unfold inode_open, dir_open in Hpop. subst st3.
      cbn [new_inode_handle new_dir_handle fst snd set_disk set_free_map
           disk free_map cwd_sector open_inodes open_dirs open_files
           next_handle trace faults] in Hpop.
      fold n in Hpop.
      erewrite (dir_add_at _ _ (S n) n snew) in Hpop;
        [|reflexivity|cbn; by rewrite lookup_insert_eq..
         |cbn; unfold entries_at; by rewrite lookup_insert_eq
         |cbn; congruence].
      unfold entries_at at 1 in Hpop.
      unfold set_disk in Hpop.
      cbn [disk free_map cwd_sector open_inodes open_dirs
           open_files next_handle trace faults] in Hpop.
      rewrite !lookup_insert_eq in Hpop.
      cbn [default from_option id i_is_dir i_length i_entries] in Hpop.
      rewrite insert_insert_eq in Hpop.
      assert (Hnum : ∀ d f tr' nh,
                inode_get_inumber
                  (mk_state d f (cwd_sector st1)
                     (<[n:=snew]> (open_inodes st1))
                     (<[S n:=n]> (open_dirs st1)) (open_files st1) nh tr'
                     (faults st1))
                  (dir_get_inode
                     (mk_state d f (cwd_sector st1)
                        (<[n:=snew]> (open_inodes st1))
                        (<[S n:=n]> (open_dirs st1)) (open_files st1) nh tr'
                        (faults st1)) (Some dh)) = psec).
      { intros. cbn. rewrite lookup_insert_ne by (unfold n; lia).
        rewrite Hd. cbn. rewrite lookup_insert_ne by (unfold n; lia).
        by rewrite Hi. }
      rewrite Hnum in Hpop. clear Hnum.
      erewrite (dir_add_at _ _ (S n) n snew) in Hpop;
        [|reflexivity|cbn; by rewrite lookup_insert_eq..
         |cbn; unfold entries_at; rewrite lookup_insert_eq; cbn;
          by rewrite lookup_insert_ne
         |cbn; congruence].
      unfold entries_at at 1 in Hpop.
      unfold set_disk, dir_close, inode_close, drop_inode_handle,
        drop_dir_handle in Hpop.
      cbn [disk free_map cwd_sector open_inodes open_dirs
           open_files next_handle trace faults] in Hpop.
      rewrite !lookup_insert_eq in Hpop.
      cbn [default from_option id i_is_dir i_length i_entries
           disk free_map cwd_sector open_inodes open_dirs
           open_files next_handle trace faults andb] in Hpop.
      rewrite insert_insert_eq in Hpop.
      injection Hpop as <- <-. cbn.
      split; [done|].
      split; [rewrite lookup_delete_ne, lookup_insert_ne by lia; done|].
      split; [rewrite lookup_delete_ne, lookup_insert_ne by lia; done|].
      split; [congruence|]. split; [done|].
      split; [rewrite lookup_insert_ne by done; by rewrite Hdisk|].
      split; [by rewrite lookup_insert_eq|].
      by rewrite <- !app_assoc.
    - injection Hpop as <- <-. cbn.
      split; [done|]. split; [done|]. split; [done|].
      split; [congruence|]. split; [done|].
      split; [rewrite lookup_insert_ne by done; by rewrite Hdisk|].
      split; [by rewrite lookup_insert_eq|].
      by rewrite app_nil_r. }
  clear Hpop.
  destruct Hst4 as (-> & Hd4 & Hi4 & Hf4 & Hfm4 & Hp4 & Hnew4 & Htr4).
  assert (Hent4 : entries_at (disk st4) psec = entries_at (disk st) psec).
  { unfold entries_at. by rewrite Hp4. }
  rewrite (dir_add_at _ _ dh ih psec) by (done || by rewrite Hent4).
  cbn [andb negb fst snd].
  rewrite dir_close_disk, dir_close_free_map.
  cbn [set_disk disk free_map].
  split; [done|]. split; [done|].
  split; [by rewrite lookup_insert_ne|].
  split; [rewrite lookup_insert_eq; cbn; by rewrite Hp4|].
  unfold dir_close, set_disk. cbn [open_dirs]. rewrite Hd4.
  cbn. rewrite Htr4. by rewrite <- !app_assoc.
Qed.

(** What the hypotheses of a successful create give, on the resolver of
    the specification. *)
Lemma create_setup st path i :
  find_code (find_file st path) = 0 →
  fs_ok st →
  first_free (free_map st) = Some i →
  ∃ psec,
    resolve_path st path = (NotFoundAsLast, psec, None) ∧
    psec ≠ Z.of_nat i ∧
    start_sector st path ≠ Z.of_nat i ∧
    (∀ x nm s, entries_at (disk st) x !! nm = Some s → s ≠ Z.of_nat i).
Proof.
  intros Hzero (Hroot & Hcwd & Hentries) Hfree.
  destruct (resolve_path st path) as [[o psec] fsec] eqn:Hres.
  pose proof (find_file_spec st path _ _ _ Hres) as (Hcode & _).
  assert (o = NotFoundAsLast) as ->
    by (rewrite Hcode in Hzero; by destruct o).
  pose proof (find_file_spec st path _ _ _ Hres)
    as (_ & _ & _ & _ & _ & _ & _ & _ & _ & _ & _ & -> & _).
  assert (Hstart : in_use (free_map st) (start_sector st path)).
  { unfold start_sector. by destruct (is_absolute path). }
  assert (Hpsec : in_use (free_map st) psec).
  { destruct (resolve_parent _ _ _ _ _ _ _ Hres) as [->|(x & nm & Hx)];
      [done|by apply (Hentries x nm)]. }
  exists psec. split; [done|].
  split; [by apply (in_use_not_first_free (free_map st))|].
  split; [by apply (in_use_not_first_free (free_map st))|].
  intros x nm s Hx. apply (in_use_not_first_free (free_map st)); [|done].
  by apply (Hentries x nm).
Qed.

Lemma create_then_resolves st path size isdir psec i :
  resolve_path st path = (NotFoundAsLast, psec, None) →
  faults st = [] →
  first_free (free_map st) = Some i →
  psec ≠ Z.of_nat i →
  start_sector st path ≠ Z.of_nat i →
  (∀ x nm s, entries_at (disk st) x !! nm = Some s → s ≠ Z.of_nat i) →
  resolve_path (fst (filesys_create st path size isdir)) path
  = (FoundAsLast, psec, Some (Z.of_nat i)).
Proof.
  intros Hres Hfaults Hfree Hne Hstart Hfresh.
  destruct (filesys_create_succeeds st path size isdir psec i
              Hres Hfaults Hfree Hne)
    as (_ & Hcwd' & Hent' & Hother & _).
  unfold resolve_path in *.
  assert (start_sector (fst (filesys_create st path size isdir)) path
          = start_sector st path) as ->.
  { unfold start_sector. by rewrite Hcwd'. }
  apply (resolve_after_create (disk st) _ _ _ _ _ _ None Hres); try done.
  intros x Hx1 Hx2. unfold entries_at. by rewrite Hother.
Qed.

(** X11.  What a successful [filesys_create] leaves.  On a well-formed
    file system, when [find_file] answers 0, no write fails and [i] is
    the lowest free sector: the call returns [true]; the free map differs
    only in that sector [i] is now in use; the parent directory has one
    more entry, the parsed last component, naming sector [i], where there
    was none of that name; the inode at sector [i] has the type and
    length asked for and, if it is a directory, exactly the entries "."
    (itself) and ".." (the parent's inode number), otherwise none; no
    other inode has changed; and every handle opened during the call has
    been closed exactly once. *)
Theorem create_success_state
    (st : state) (path : string) (size : Z) (isdir : bool) (i : nat) :
  find_code (find_file st path) = 0 →
  fs_ok st →
  faults st = [] →
  first_free (free_map st) = Some i →
  let res := find_file st path in
  let r := filesys_create st path size isdir in
  let snew := Z.of_nat i in
  ∃ psec,
    dir_sector (find_state res) (find_dir res) = Some psec ∧
    snd r = true ∧
    free_map (fst r) = <[i := true]> (free_map st) ∧
    entries_at (disk st) psec !! find_filename res = None ∧
    entries_at (disk (fst r)) psec
    = <[find_filename res := snew]> (entries_at (disk st) psec) ∧
    disk (fst r) !! snew
    = Some (mk_inode_disk isdir size
              (if isdir then <[".." := psec]> (<["." := snew]> ∅) else ∅)) ∧
    (∀ x, x ≠ psec → x ≠ snew → disk (fst r) !! x = disk st !! x) ∧
    balanced [] (new_events st (fst r)).
Proof.
  intros Hzero Hok Hfaults Hfree res r snew.
  destruct (create_setup st path i Hzero Hok Hfree)
    as (psec & Hres & Hne & _ & _).
  destruct (find_file_summary st path)
    as (dh & ih & psec' & Hat & Htr & Hbound & Hodh & Hoih & Hcases).
  fold res in Hat, Htr, Hbound, Hodh, Hoih, Hcases.
  pose proof (find_file_spec st path _ _ _ Hres)
    as (_ & _ & dh0 & ih0 & _ & Hat0 & _ & _ & _ & _ & _ & _ & Hfn).
  fold res in Hat0, Hfn.
  assert (psec' = psec) as ->.
  { pose proof (dir_at_sector _ _ _ _ _ Hat).
    pose proof (dir_at_sector _ _ _ _ _ Hat0). congruence. }
  clear dh0 ih0 Hat0.
  destruct (filesys_create_succeeds st path size isdir psec i
              Hres Hfaults Hfree Hne)
    as (_ & _ & Hent' & Hother & _).
  destruct (filesys_create_result st path size isdir psec i dh ih
              Hres Hfaults Hfree Hne Hat)
    as (Hret & Hfm & Hnew & _ & Htrace).
  fold r in Hent', Hother, Hret, Hfm, Hnew, Htrace. fold res in Htrace.
  exists psec. split; [by apply (dir_at_sector _ _ dh ih)|].
  split; [done|]. split; [done|].
  split; [rewrite Hfn; by apply (resolve_not_found _ _ _ _ _ _ Hres)|].
  split; [by rewrite Hfn|]. split; [done|]. split; [done|].
  destruct Hcases as [[Hone _]|[[_ [_ Hbal]]|[Hm _]]];
    [fold res in Hone; unfold res in Hone; congruence| |
     fold res in Hm; unfold res in Hm; congruence].
  set (n := next_handle (find_state res)) in *.
  set (E1 := new_events st (find_state res)) in *.
  rewrite (new_events_app st _
    (E1 ++ (if isdir
            then [EvInodeOpen n; EvDirOpen (S n); EvDirClose (S n);
                  EvInodeClose n]
            else []) ++ [EvDirClose dh; EvInodeClose ih]))
    by (rewrite Htrace, Htr, <- !app_assoc; done).
  pose proof Hat as (_ & _ & _ & Hlt & _).
  assert (Hfresh : ∀ h, (n <= h)%nat → opens_of h E1 = O).
  { intros h Hh. destruct (opens_of h E1) eqn:E; [done|].
    assert (next_handle st <= h < n)%nat by (apply Hbound; lia). lia. }
  assert (Hn : (dh < n ∧ ih < n)%nat).
  { pose proof (Hbound dh). pose proof (Hbound ih). lia. }
  apply (balanced_step [dh; ih]); [done|].
  intros h. destruct (Hbal h) as [Hle _].
  pose proof (Hfresh h). destruct isdir; split; handle_cases.
Qed.

(** ** How the operations compose *)

(** X12.  A name can be created once.  On a well-formed file system
    ([fs_ok]), when [find_file] answers 0 for the path, a sector is free
    and no write fails: after [filesys_create] of the path (which then
    succeeds), the same path resolves to "found, last part", and a second
    [filesys_create] of it, of either kind, returns [false] and changes
    neither the inodes on disk nor the free map. *)
Theorem create_twice
    (st : state) (path : string) (size size' : Z) (isdir isdir' : bool) :
  find_code (find_file st path) = 0 →
  fs_ok st →
  faults st = [] →
  is_Some (first_free (free_map st)) →
  let st1 := fst (filesys_create st path size isdir) in
  find_code (find_file st1 path) = 1 ∧
  snd (filesys_create st1 path size' isdir') = false ∧
  disk (fst (filesys_create st1 path size' isdir')) = disk st1 ∧
  free_map (fst (filesys_create st1 path size' isdir')) = free_map st1.
Proof.
  intros Hzero Hok Hfaults [i Hfree] st1.
  destruct (create_setup st path i Hzero Hok Hfree)
    as (psec & Hres & Hne & Hstart & Hfresh).
  pose proof (create_then_resolves st path size isdir psec i
                Hres Hfaults Hfree Hne Hstart Hfresh) as Hres1.
  fold st1 in Hres1.
  pose proof (find_file_spec st1 path _ _ _ Hres1) as (Hone & Hsame & _).
  cbn in Hone. split; [done|].
  rewrite filesys_create_not_absent by (rewrite Hone; done).
  cbn [fst snd]. rewrite dir_close_disk, dir_close_free_map.
  split; [done|]. split; apply Hsame.
Qed.

(** X13.  Making a directory, entering it and leaving it by "..".  On a
    well-formed file system ([fs_ok]), when [find_file] answers 0 for the
    path, its parent is a directory, [i] is the lowest free sector, no
    write fails and ".." fits in a name ([2 <= NAME_MAX]): after
    [filesys_create] of the path as a directory,
    [filesys_change_dir] to the path succeeds and makes sector [i] the
    working directory; from there [filesys_change_dir] to "." succeeds and
    stays, and [filesys_change_dir] to ".." succeeds and makes the parent
    directory the working directory. *)
Theorem mkdir_enter_leave
    (st : state) (path : string) (size : Z) (i : nat) :
  let res := find_file st path in
  let parent := dir_get_inode (find_state res) (find_dir res) in
  find_code res = 0 →
  inode_is_dir (find_state res) parent = true →
  fs_ok st →
  faults st = [] →
  first_free (free_map st) = Some i →
  (2 <= NAME_MAX)%nat →
  let st1 := fst (filesys_create st path size true) in
  let st2 := fst (filesys_change_dir st1 path) in
  snd (filesys_change_dir st1 path) = true ∧
  cwd_sector st2 = Z.of_nat i ∧
  snd (filesys_change_dir st2 ".") = true ∧
  cwd_sector (fst (filesys_change_dir st2 ".")) = Z.of_nat i ∧
  snd (filesys_change_dir st2 "..") = true ∧
  cwd_sector (fst (filesys_change_dir st2 ".."))
  = inode_get_inumber (find_state res) parent.
Proof.
  intros res parent Hzero Hpdir Hok Hfaults Hfree Hmax st1 st2.
  destruct (create_setup st path i Hzero Hok Hfree)
    as (psec & Hres & Hne & Hstart & Hfresh).
  pose proof (create_then_resolves st path size true psec i
                Hres Hfaults Hfree Hne Hstart Hfresh) as Hres1.
  pose proof (find_file_spec st path _ _ _ Hres)
    as (_ & Hsame & dh & ih & _ & Hat & _).
  fold res in Hsame, Hat.
  destruct (filesys_create_result st path size true psec i dh ih
              Hres Hfaults Hfree Hne Hat)
    as (_ & _ & Hnew & Hparent & _).
  fold st1 in Hres1, Hnew, Hparent.
  set (snew := Z.of_nat i) in *.
  (* the parent directory, on disk *)
  pose proof Hat as (Hdir & Hd & Hi & _).
  assert (Hpar : parent = Some ih).
  { unfold parent, dir_get_inode. by rewrite Hdir. }
  assert (Hpnum : inode_get_inumber (find_state res) parent = psec).
  { rewrite Hpar. unfold inode_get_inumber. by rewrite Hi. }
  assert (Hpino : ∃ pino, disk st !! psec = Some pino ∧ i_is_dir pino = true).
  { rewrite Hpar in Hpdir. unfold inode_is_dir, inode_data in Hpdir.
    rewrite Hi in Hpdir. destruct Hsame as (<- & _).
    destruct (disk (find_state res) !! psec) as [pino|]; [|done]. eauto. }
  destruct Hpino as (pino & Hpino & Hpisdir).
  rewrite Hpino in Hparent. cbn in Hparent.
  destruct (disk st1 !! psec) as [pino1|] eqn:Hpino1; [|done].
  cbn in Hparent. assert (Hp1 : i_is_dir pino1 = true) by congruence.
  (* entering the new directory *)
  pose proof (change_dir_resolve st1 path) as [Hiff1 Hfound1].
  rewrite Hres1 in Hiff1.
  assert (Hin : snd (filesys_change_dir st1 path) = true).
  { apply Hiff1. eexists psec, snew, _. by split_and!. }
  destruct (Hfound1 psec snew Hres1) as [Hcwd1 _].
  destruct (Hcwd1 Hin) as [Hcwd2 Hrel]. fold st2 in Hcwd2, Hrel.
  destruct (lookups_same_disk st1 path) as (_ & _ & Hdisk2 & _).
  fold st2 in Hdisk2.
  split; [done|]. split; [done|].
  (* "." and ".." from inside *)
  assert (Hdot : resolve_path st2 "." = (FoundAsLast, snew, Some snew)).
  { rewrite Hrel by done. cbn [components ends_in_slash resolve].
    change (components ".") with ["."]. cbn [resolve negb String.length].
    destruct (Nat.ltb_spec NAME_MAX 1); [lia|].
    unfold entries_at. rewrite Hnew. cbn [i_entries].
    by rewrite lookup_insert_ne, lookup_insert_eq. }
  assert (Hdotdot : resolve_path st2 ".." = (FoundAsLast, snew, Some psec)).
  { rewrite Hrel by done.
    change (components "..") with [".."]. cbn [resolve negb String.length].
    destruct (Nat.ltb_spec NAME_MAX 2); [lia|].
    unfold entries_at. rewrite Hnew. cbn [i_entries].
    by rewrite lookup_insert_eq. }
  pose proof (change_dir_resolve st2 ".") as [Hiff2 Hfound2].
  pose proof (change_dir_resolve st2 "..") as [Hiff3 Hfound3].
  rewrite Hdot in Hiff2. rewrite Hdotdot in Hiff3.
  assert (Hok2 : snd (filesys_change_dir st2 ".") = true).
  { apply Hiff2. eexists snew, snew, _. rewrite Hdisk2. by split_and!. }
  assert (Hok3 : snd (filesys_change_dir st2 "..") = true).
  { apply Hiff3. exists snew, psec, pino1. rewrite Hdisk2. by split_and!. }
  split; [done|].
  split; [by destruct (Hfound2 snew snew Hdot) as [Hc _];
          destruct (Hc Hok2)|].
  split; [done|]. rewrite Hpnum.
  by destruct (Hfound3 snew psec Hdotdot) as [Hc _]; destruct (Hc Hok3).
Qed.

Lemma split_path_nonempty p : split_path p ≠ [].
Proof.
  destruct p as [|c p]; [done|]. cbn [split_path].
  destruct (Ascii.eqb c "/"); [done|]. by destruct (split_path p).
Qed.

Lemma split_path_app p q :
  split_path (p +:+ String "/" q) = (split_path p ++ split_path q)%list.
Proof.
  induction p as [|c p IH]; [reflexivity|].
  rewrite append_cons. cbn [split_path].
  destruct (Ascii.eqb c "/"); [by rewrite IH|].
  rewrite IH. pose proof (split_path_nonempty p).
  by destruct (split_path p).
Qed.

Lemma components_app p q :
  components (p +:+ String "/" q) = (components p ++ components q)%list.
Proof. unfold components. by rewrite split_path_app, List.filter_app. Qed.

Lemma resolve_found d tr cs : ∀ start psec s,
  resolve d tr start cs = (FoundAsLast, psec, Some s) →
  all_fit cs ∧ cs ≠ [] ∧ descend d start cs = Some s.
Proof.
  induction cs as [|c cs IH]; intros start psec s Hres; [done|].
  cbn [resolve] in Hres.
  destruct (Nat.ltb_spec NAME_MAX (String.length c)); [done|].
  cbn [descend].
  destruct (entries_at d start !! c) as [s'|] eqn:Hent.
  2:{ by destruct (match cs with [] => negb tr | _ => false end). }
  destruct (match cs with [] => negb tr | _ => false end) eqn:Hlast.
  - assert (cs = []) as -> by (by destruct cs). simplify_eq.
    split; [by apply Forall_cons|]. done.
  - destruct (IH _ _ _ Hres) as (Hfit & _ & Hdesc).
    split; [by apply Forall_cons|]. done.
Qed.

Lemma relative_has_component q :
  is_absolute q = false → q ≠ EmptyString → components q ≠ [].
Proof.
  destruct q as [|c r]; [done|]. cbn [is_absolute].
  intros Hc%Ascii.eqb_neq _. by rewrite components_field.
Qed.

(** X14.  Changing directory and then resolving a relative path is
    resolving the two paths joined by a separator: after a successful
    [filesys_change_dir] to [p], [find_file] answers for every relative
    path [q] what it answered for [p/q] before the change. *)
Theorem change_dir_then_relative (st : state) (p q : string) :
  snd (filesys_change_dir st p) = true →
  is_absolute q = false →
  find_code (find_file (fst (filesys_change_dir st p)) q)
  = find_code (find_file st (p +:+ String "/" q)).
Proof.
  intros Hok Hrel.
  pose proof (change_dir_resolve st p) as [Hiff Hfound].
  apply Hiff in Hok as Hex. destruct Hex as (psec & s & ino & Hres & _).
  destruct (Hfound psec s Hres) as [Hcwd _].
  destruct (Hcwd Hok) as [_ Hq]. specialize (Hq q Hrel).
  set (st' := fst (filesys_change_dir st p)) in *.
  unfold resolve_path in Hres.
  destruct (resolve_found _ _ _ _ _ _ Hres) as (Hfit & Hne & Hdesc).
  assert (Hp : p ≠ EmptyString) by (by intros ->).
  assert (Habs : is_absolute (p +:+ String "/" q) = is_absolute p).
  { destruct p; [done|]. by rewrite append_cons. }
  destruct (resolve_path st' q) as [[o' psec'] fsec'] eqn:Hres'.
  destruct (find_file_spec st' q _ _ _ Hres') as (-> & _).
  destruct (resolve_path st (p +:+ String "/" q))
    as [[o2 psec2] fsec2] eqn:Hres2.
  destruct (find_file_spec st (p +:+ String "/" q) _ _ _ Hres2) as (-> & _).
  f_equal.
  unfold resolve_path, start_sector in Hres2. rewrite Habs in Hres2.
  fold (start_sector st p) in Hres2. rewrite components_app in Hres2.
  destruct q as [|c r].
  - (* nothing after the separator: both are invalid *)
    cbn in Hq. simplify_eq.
    pose proof (resolve_trailing (disk st) (components p ++ components "")
                  (start_sector st p)) as Hinv.
    assert (ends_in_slash (p +:+ "/") = true) as Hends
      by (by rewrite ends_in_slash_append).
    rewrite Hends in Hres2. rewrite Hres2 in Hinv. cbn in Hinv.
    by subst o2.
  - assert (Hcq : components (String c r) ≠ [])
      by (by apply relative_has_component).
    rewrite (resolve_descend _ _ _ _ s) in Hres2 by done.
    rewrite ends_in_slash_append in Hres2 by done.
    rewrite ends_in_slash_cons in Hres2 by done.
    congruence.
Qed.

(** X15.  The loop of [find_file] ends within one iteration more than
    the path has characters: with that many iterations allowed or with
    any larger number it returns, and returns the same. *)
Theorem find_file_loop_bounded
    (fuel : nat) (st : state) (src filename : string)
    (cwd next_inode : option nat) (result : Z) :
  (String.length src < fuel)%nat →
  is_Some (find_file_loop fuel st src filename cwd next_inode result) ∧
  find_file_loop fuel st src filename cwd next_inode result
  = find_file_loop (S (String.length src)) st src filename cwd next_inode
      result.
Proof.
  intros Hfuel. rewrite !find_file_loop_components by lia. eauto.
Qed.

(** ** Paths that cannot name anything *)

(** X16.  A path with a component longer than [NAME_MAX], and a path
    with no component at all (the empty path, or separators only, such as
    "/"), is refused by every operation: [filesys_open] returns [NULL],
    [filesys_create], [filesys_remove] and [filesys_change_dir] return
    [false], and none of them changes an inode on disk or the free map.
    In particular the root directory cannot be opened or entered as
    "/". *)
Theorem unnameable_paths
    (st : state) (path : string) (size : Z) (isdir : bool) :
  Exists (λ c, (NAME_MAX < String.length c)%nat) (components path) ∨
  components path = [] →
  find_code (find_file st path) = -1 ∧
  snd (filesys_open st path) = OpenNull ∧
  snd (filesys_create st path size isdir) = false ∧
  snd (filesys_remove st path) = false ∧
  snd (filesys_change_dir st path) = false ∧
  same_disk st (fst (filesys_open st path)) ∧
  disk (fst (filesys_create st path size isdir)) = disk st ∧
  free_map (fst (filesys_create st path size isdir)) = free_map st ∧
  disk (fst (filesys_remove st path)) = disk st ∧
  same_disk st (fst (filesys_change_dir st path)).
Proof.
  intros Hwhy.
  assert (Hinv : find_code (find_file st path) = -1).
  { destruct (resolve_path st path) as [[o psec] fsec] eqn:Hres.
    destruct (find_file_spec st path _ _ _ Hres) as (-> & _).
    unfold resolve_path in Hres. destruct Hwhy as [Hlong|Hnil].
    - pose proof (resolve_too_long (disk st) (ends_in_slash path) _
                    (start_sector st path) Hlong) as Hi.
      rewrite Hres in Hi. cbn in Hi. by subst o.
    - rewrite Hnil in Hres. cbn in Hres. by simplify_eq. }
  destruct (lookups_same_disk st path) as (Hfind & Hopen & Hcd).
  split; [done|].
  split; [apply filesys_open_not_found; lia|].
  rewrite filesys_create_not_absent by lia. cbn [fst snd].
  split; [done|].
  split; [apply filesys_remove_not_found; lia|].
  split; [apply filesys_change_dir_not_found; lia|].
  split; [done|].
  rewrite dir_close_disk, dir_close_free_map.
  split; [apply Hfind|]. split; [apply Hfind|]. split; [|done].
  unfold filesys_remove, find_code in *.
  destruct (find_file st path) as [st1 [[[rc fn] dir] ino]].
  cbn [fst snd] in *. subst rc. cbn [Z.eqb andb fst].
  rewrite dir_close_disk. apply Hfind.
Qed.

Lemma resolve_valid d tr cs : ∀ start o psec fsec,
  resolve d tr start cs = (o, psec, fsec) → o ≠ Invalid →
  all_fit cs ∧ cs ≠ [].
Proof.
  induction cs as [|c cs IH]; intros start o psec fsec Hres Ho.
  { cbn in Hres. by simplify_eq. }
  cbn [resolve] in Hres.
  destruct (Nat.ltb_spec NAME_MAX (String.length c)); [by simplify_eq|].
  split; [|done]. apply Forall_cons. split; [done|].
  destruct (entries_at d start !! c) as [s'|].
  - destruct (match cs with [] => negb tr | _ => false end) eqn:Hlast.
    + assert (cs = []) as -> by (by destruct cs). constructor.
    + by destruct (IH _ _ _ _ Hres Ho).
  - destruct (match cs with [] => negb tr | _ => false end) eqn:Hlast;
      [|by simplify_eq].
    assert (cs = []) as -> by (by destruct cs). constructor.
Qed.

(** X17.  Whenever [find_file] answers 0 or 1, the buffer [filename]
    holds the last component of the path: a name that is not empty, has
    no separator in it and is at most [NAME_MAX] characters long, and so
    fits the buffer of [NAME_MAX + 1] bytes with its terminator. *)
Theorem find_file_filename (st : state) (path : string) :
  let res := find_file st path in
  find_code res ≠ -1 →
  find_filename res = List.last (components path) EmptyString ∧
  In (find_filename res) (components path) ∧
  find_filename res ≠ EmptyString ∧
  no_slash (find_filename res) = true ∧
  (String.length (find_filename res) <= NAME_MAX)%nat.
Proof.
  intros res Hcode.
  destruct (resolve_path st path) as [[o psec] fsec] eqn:Hres.
  pose proof (find_file_spec st path _ _ _ Hres)
    as (Hr & _ & dh & ih & evs & _ & _ & _ & _ & _ & Ho).
  fold res in Hr, Ho.
  assert (Hvalid : o ≠ Invalid) by (intros ->; by rewrite Hr in Hcode).
  destruct (resolve_valid _ _ _ _ _ _ _ Hres Hvalid) as [Hfit Hne].
  assert (Hfn : find_filename res = List.last (components path) EmptyString).
  { destruct o; [done|by destruct Ho as (_ & _ & ?)|].
    by destruct Ho as (? & ? & _ & _ & _ & _ & _ & ?). }
  assert (Hin : In (find_filename res) (components path)).
  { rewrite Hfn. destruct (components path) as [|c cs] eqn:Hc; [done|].
    destruct (exists_last (l := c :: cs)) as (l' & a & Heq); [done|].
    rewrite Heq, last_last. apply in_or_app. right. by left. }
  split; [done|]. split; [done|].
  split.
  { intros Hempty. rewrite Hempty in Hin. unfold components in Hin.
    by apply List.filter_In in Hin as [_ ?]. }
  split; [by apply (components_no_slash path)|].
  unfold all_fit in Hfit. rewrite List.Forall_forall in Hfit.
  by apply Hfit.
Qed.

(** ** Creating: what happens to the free map *)

Lemma take_fault_free_map st st' b :
  take_fault st = (st', b) → free_map st' = free_map st.
Proof. unfold take_fault. destruct (faults st); intros; by simplify_eq. Qed.

Lemma inode_open_free_map st s st' ih :
  inode_open st s = (st', ih) → free_map st' = free_map st.
Proof. unfold inode_open. cbn. intros; by simplify_eq. Qed.

Lemma dir_open_free_map st i st' d :
  dir_open st i = (st', d) → free_map st' = free_map st.
Proof. unfold dir_open. destruct i; cbn; intros; by simplify_eq. Qed.

Lemma dir_add_free_map st d name s st' b :
  dir_add st d name s = (st', b) → free_map st' = free_map st.
Proof.
  unfold dir_add. intros H.
  repeat case_match; simplify_eq; try done;
    match goal with
    | H : take_fault _ = _ |- _ => apply take_fault_free_map in H
    end; done.
Qed.

Lemma inode_create_free_map st s len isdir st' b :
  inode_create st s len isdir = (st', b) → free_map st' = free_map st.
Proof.
  unfold inode_create. intros H.
  repeat case_match; simplify_eq;
    match goal with
    | H : take_fault _ = _ |- _ => apply take_fault_free_map in H
    end; done.
Qed.

(** X18.  [filesys_create] returns [true] only when [find_file] answered
    0 and a sector was free, and then the free map differs from the one
    before the call in exactly that sector's bit, now set.  Whenever it
    returns [false] the free map is the one before the call: on every
    failing path behind the allocation, the early one after
    [inode_create] and the late one after the directory writes, the
    sector is given back. *)
Theorem create_sector_accounting
    (st : state) (path : string) (size : Z) (isdir : bool) :
  let r := filesys_create st path size isdir in
  if snd r
  then find_code (find_file st path) = 0 ∧
       ∃ i, first_free (free_map st) = Some i ∧
            free_map (fst r) = <[i := true]> (free_map st)
  else free_map (fst r) = free_map st.
Proof.
  intros r. subst r.
  pose proof (find_file_same_store st path _ eq_refl) as (_ & Hfm & _).
  unfold filesys_create, find_code, find_state in *.
  destruct (find_file st path) as [st1 [[[rc fn] dir] ino]].
  cbn [fst snd] in *.
  destruct (bool_of_int rc) eqn:Hb.
  { cbn [fst snd]. by rewrite dir_close_free_map. }
  assert (rc = 0) as ->.
  { unfold bool_of_int in Hb. by destruct (Z.eqb_spec rc 0). }
  destruct dir as [dh|]; [|done].
  unfold free_map_allocate. rewrite Hfm.
  destruct (first_free (free_map st)) as [i|] eqn:Hfree; [|done].
  cbn [negb].
  repeat case_match; simplify_eq;
    repeat match goal with
    | H : inode_create _ _ _ _ = (_, _) |- _ =>
        apply inode_create_free_map in H
    | H : inode_open _ _ = (_, _) |- _ => apply inode_open_free_map in H
    | H : dir_open _ _ = (_, _) |- _ => apply dir_open_free_map in H
    | H : dir_add _ _ _ _ = (_, _) |- _ => apply dir_add_free_map in H
    | b : bool |- _ => destruct b
    end;
    cbn [fst snd negb andb free_map set_free_map] in *; try done;
    rewrite ?dir_close_free_map in *;
    try (split; [done|]; exists i; split; [done|]);
    try congruence.
  all: unfold free_map_release; cbn [free_map set_free_map];
    rewrite ?dir_close_free_map;
    (transitivity (<[Z.to_nat (Z.of_nat i) := false]>
                     (<[i := true]> (free_map st)));
     [congruence|by apply allocate_release]).
Qed.

End Filesys.

(** * The code on concrete file systems *)

(** C1.  On [fs_dot_fails], creating the directory "d" fails because the
    "." entry cannot be written: [filesys_create] returns [false] and
    gives sector 3 back to the free map, but it has added the entry "d"
    to the root directory all the same, where it now names the freed
    sector. *)
Theorem create_failure_leaves_entry :
  let r := filesys_create 14 1 fs_dot_fails "d" 0 true in
  fst (fst (resolve_path 14 1 fs_dot_fails "d")) = NotFoundAsLast ∧
  entries_at (disk fs_dot_fails) 1 !! "d" = None ∧
  snd r = false ∧
  free_map (fst r) = free_map fs_dot_fails ∧
  entries_at (disk (fst r)) 1 !! "d" = Some 3 ∧
  fst (fst (resolve_path 14 1 (fst r) "d")) = FoundAsLast.
Proof. vm_compute. repeat split; reflexivity. Qed.

(** C2.  Handles that are never closed.  On [fs_full], [filesys_create]
    of "x" fails in the allocation and returns with the parent directory
    handle (1) and its inode handle (0) still open: no close event at
    all.  On [fs_root_a], [filesys_create] of the existing "a" and
    [filesys_remove] of "a" both return with the inode handle that the
    lookup opened (2) still open.  And [filesys_open] of "a/" closes inode
    handle 2 twice. *)
Theorem handles_not_released :
  (let r := filesys_create 14 1 fs_full "x" 0 false in
   snd r = false ∧
   new_events fs_full (fst r) = [EvInodeOpen 0; EvDirOpen 1] ∧
   open_dirs (fst r) !! 1%nat = Some 0%nat ∧
   closes_of 1 (new_events fs_full (fst r)) = O) ∧
  (let r := filesys_create 14 1 fs_root_a "a" 0 false in
   snd r = false ∧
   new_events fs_root_a (fst r)
   = [EvInodeOpen 0; EvDirOpen 1; EvInodeOpen 2; EvDirClose 1;
      EvInodeClose 0] ∧
   open_inodes (fst r) !! 2%nat = Some 2 ∧
   closes_of 2 (new_events fs_root_a (fst r)) = O) ∧
  (let r := filesys_remove 14 1 fs_root_a "a" in
   snd r = true ∧
   open_inodes (fst r) !! 2%nat = Some 2 ∧
   closes_of 2 (new_events fs_root_a (fst r)) = O) ∧
  (let r := filesys_open 14 1 fs_root_a "a/" in
   snd r = OpenNull ∧
   closes_of 2 (new_events fs_root_a (fst r)) = 2%nat).
Proof. vm_compute. repeat split; reflexivity. Qed.

(** C3.  On [fs_root_a], whose working directory is the root (sector 1),
    "/a" resolves to "found, last part" with the inode at sector 2, which
    is not the working directory; yet [filesys_remove] of "/a" returns
    [false] and the entry "a" stays, because the whole path, not the last
    component, is handed to [dir_remove].  The same entry named by the
    bare component "a" is removed. *)
Theorem remove_by_path_fails :
  resolve_path 14 1 fs_root_a "/a" = (FoundAsLast, 1, Some 2) ∧
  cwd_sector fs_root_a = 1 ∧
  find_filename (find_file 14 1 fs_root_a "/a") = "a" ∧
  snd (filesys_remove 14 1 fs_root_a "/a") = false ∧
  entries_at (disk (fst (filesys_remove 14 1 fs_root_a "/a"))) 1 !! "a"
  = Some 2 ∧
  snd (filesys_remove 14 1 fs_root_a "a") = true ∧
  entries_at (disk (fst (filesys_remove 14 1 fs_root_a "a"))) 1 !! "a"
  = None.
Proof. vm_compute. repeat split; reflexivity. Qed.

(** C4.  A separator at the end of a path is not ignored.  On
    [fs_root_a], "/a" and "//a" resolve to "found, last part" and "/b" to
    "not found, last part", but "/a/" and "/b/" resolve to invalid: the
    loop of [find_file] tests [*src == 0] right after the component, goes
    round once more when only separators follow, and breaks on the
    parser's 0 with [result] still -1.  So [filesys_open] and
    [filesys_change_dir] succeed on "/a" and fail on "/a/", and
    [filesys_create] makes the directory "/b" but not "/b/".  On "/a/"
    [find_file] also returns with [*next_inode] (handle 2) being the
    inode handle that the directory handle in [*cwd] (handle 3) owns, so
    [filesys_open] and [filesys_change_dir], which close both, close
    inode handle 2 twice. *)
Theorem trailing_separator_not_ignored :
  find_code (find_file 14 1 fs_root_a "/a") = 1 ∧
  find_code (find_file 14 1 fs_root_a "//a") = 1 ∧
  find_code (find_file 14 1 fs_root_a "/a/") = -1 ∧
  find_code (find_file 14 1 fs_root_a "/b") = 0 ∧
  find_code (find_file 14 1 fs_root_a "/b/") = -1 ∧
  snd (filesys_open 14 1 fs_root_a "/a") = OpenDir 3 ∧
  snd (filesys_open 14 1 fs_root_a "/a/") = OpenNull ∧
  snd (filesys_change_dir 14 1 fs_root_a "/a") = true ∧
  snd (filesys_change_dir 14 1 fs_root_a "/a/") = false ∧
  snd (filesys_create 14 1 fs_root_a "/b" 0 true) = true ∧
  snd (filesys_create 14 1 fs_root_a "/b/" 0 true) = false ∧
  (let res := find_file 14 1 fs_root_a "/a/" in
   find_dir res = Some 3%nat ∧
   dir_get_inode (find_state res) (find_dir res) = Some 2%nat ∧
   find_inode res = Some 2%nat) ∧
  new_events fs_root_a (fst (filesys_change_dir 14 1 fs_root_a "/a/"))
  = [EvInodeOpen 0; EvDirOpen 1; EvInodeOpen 2; EvDirClose 1;
     EvInodeClose 0; EvDirOpen 3; EvDirClose 3; EvInodeClose 2;
     EvInodeClose 2] ∧
  closes_of 2 (new_events fs_root_a
                 (fst (filesys_change_dir 14 1 fs_root_a "/a/"))) = 2%nat ∧
  closes_of 2 (new_events fs_root_a
                 (fst (filesys_open 14 1 fs_root_a "/a/"))) = 2%nat.
Proof. vm_compute. repeat split; reflexivity. Qed.

(** [fs_root_a] is well formed. *)
Lemma fs_root_a_ok : fs_ok 1 fs_root_a.
Proof.
  split; [by split|]. split; [by split|].
  intros d name s. unfold entries_at, fs_root_a. cbn [disk free_map].
  destruct (decide (d = 1)) as [->|Hd1].
  { rewrite lookup_insert_eq. cbn [i_entries].
    intros [_ <-]%lookup_singleton_Some. by split. }
  rewrite lookup_insert_ne by done.
  destruct (decide (d = 2)) as [->|Hd2].
  { rewrite lookup_singleton_eq. cbn [i_entries]. by rewrite lookup_empty. }
  rewrite lookup_singleton_ne by done. by rewrite lookup_empty.
Qed.

(** C6.  Creating and then opening fails on a file system that a failed
    [filesys_create] has left behind.  On [fs_dotdot_fails], a well-formed
    file system, making the directory "d" fails at the write of "..":
    [filesys_create] returns [false] and gives sector 3 back, but it has
    added the entry "d" to the root, naming the freed sector, and the
    inode there still holds ".".  No write fault is pending any more and
    sector 3 is free.  Now "d/./x" resolves to "not found, last part",
    and [filesys_create] of "d/./x" as a file returns [true]: it is given
    sector 3 again, writes the new file's inode over the directory "d"
    and adds the entry "x" to that very inode.  [filesys_open] of "d/./x"
    then returns [NULL], the path being invalid since "." is gone. *)
Theorem create_then_open_after_failed_mkdir :
  let st1 := fst (filesys_create 14 1 fs_dotdot_fails "d" 0 true) in
  let st2 := fst (filesys_create 14 1 st1 "d/./x" 0 false) in
  fs_ok 1 fs_dotdot_fails ∧
  snd (filesys_create 14 1 fs_dotdot_fails "d" 0 true) = false ∧
  entries_at (disk st1) 1 !! "d" = Some 3 ∧
  entries_at (disk st1) 3 !! "." = Some 3 ∧
  faults st1 = [] ∧
  first_free (free_map st1) = Some 3%nat ∧
  resolve_path 14 1 st1 "d/./x" = (NotFoundAsLast, 3, None) ∧
  find_code (find_file 14 1 st1 "d/./x") = 0 ∧
  snd (filesys_create 14 1 st1 "d/./x" 0 false) = true ∧
  snd (filesys_open 14 1 st2 "d/./x") = OpenNull ∧
  find_code (find_file 14 1 st2 "d/./x") = -1 ∧
  i_is_dir <$> disk st2 !! 3 = Some false ∧
  entries_at (disk st2) 3 !! "x" = Some 3 ∧
  entries_at (disk st2) 3 !! "." = None.
Proof.
  split; [exact fs_root_a_ok|].
  vm_compute. repeat split; reflexivity.
Qed.

(** * Instances of the theorems on [fs_root_a] *)

Lemma parser_yields_components_witness :
  get_all_parts 14 9 "" "//ab/c//" = Some (["ab"; "c"], 0) ∧
  get_next_part 14 "" "///" = (0, "", "///") ∧
  get_all_parts 14 21 "" "/a/0123456789abcdef/b" = Some (["a"], -1) ∧
  (∃ part', get_next_part 14 "" "/0123456789abcdef/b"
            = (-1, part', "/0123456789abcdef/b")).
Proof.
  split; [|split; [|split]].
  - apply (parser_yields_components 14 "//ab/c//" "").
    vm_compute. repeat constructor.
  - apply (parser_yields_components 14 "///" ""). reflexivity.
  - pose proof (parser_yields_components 14 "/a/0123456789abcdef/b" "")
      as (_ & _ & H & _).
    apply (H ["a"] "0123456789abcdef" ["b"]).
    + reflexivity.
    + vm_compute. repeat constructor.
    + vm_compute. lia.
  - pose proof (parser_yields_components 14 "/0123456789abcdef/b" "")
      as (_ & _ & _ & H).
    apply (H "0123456789abcdef" ["b"]).
    + reflexivity.
    + vm_compute. lia.
Defined.

Lemma trailing_separator_is_invalid_witness :
  (0 < 1)%nat ∧ find_code (find_file 14 1 fs_root_a "/a/") = -1.
Proof.
  split; [lia|].
  apply (trailing_separator_is_invalid 14 1 fs_root_a "/a" 1 0 false). lia.
Defined.

Lemma resolver_classifies_witness :
  find_code (find_file 14 1 fs_root_a "/a/b/c") = -1 ∧
  find_code (find_file 14 1 fs_root_a "/a/b") = 0 ∧
  find_code (find_file 14 1 fs_root_a "/a") = 1.
Proof.
  assert (Hfit1 : all_fit 14 (components "/a/b"))
    by (vm_compute; repeat constructor).
  assert (Hfit2 : all_fit 14 (components "/a"))
    by (vm_compute; repeat constructor).
  split; [|split].
  - pose proof (resolver_classifies 14 1 fs_root_a "/a/b/c")
      as (_ & _ & _ & _ & _ & H).
    apply (H 2); reflexivity.
  - pose proof (resolver_classifies 14 1 fs_root_a "/a/b")
      as (_ & _ & _ & H & _).
    pose proof (H ["a"] "b" 2 eq_refl eq_refl Hfit1 eq_refl) as Hm.
    vm_compute in Hm. vm_compute. exact (proj1 Hm).
  - pose proof (resolver_classifies 14 1 fs_root_a "/a")
      as (_ & _ & _ & H & _).
    pose proof (H [] "a" 1 eq_refl eq_refl Hfit2 eq_refl) as Hm.
    vm_compute in Hm. vm_compute. exact (proj1 Hm).
Defined.

Lemma create_then_open_witness :
  snd (filesys_create 14 1 fs_root_a "a/f" 0 false) = true ∧
  (∃ f, snd (filesys_open 14 1 (fst (filesys_create 14 1 fs_root_a "a/f" 0
                                       false)) "a/f") = OpenFile f) ∧
  snd (filesys_create 14 1 fs_root_a "d" 0 true) = true ∧
  (∃ d, snd (filesys_open 14 1 (fst (filesys_create 14 1 fs_root_a "d" 0
                                       true)) "d") = OpenDir d) ∧
  snd (filesys_create 14 1 fs_root_a "/a" 0 false) = false.
Proof.
  assert (Hfree : is_Some (first_free (free_map fs_root_a)))
    by (eexists; reflexivity).
  pose proof (proj1 (create_then_open 14 1 fs_root_a "a/f" 0 false)
                eq_refl fs_root_a_ok eq_refl Hfree) as [H1 H2].
  pose proof (proj1 (create_then_open 14 1 fs_root_a "d" 0 true)
                eq_refl fs_root_a_ok eq_refl Hfree) as [H3 H4].
  pose proof (proj2 (create_then_open 14 1 fs_root_a "/a" 0 false)
                eq_refl) as [H5 _].
  repeat split; assumption.
Defined.

Lemma change_dir_spec_witness :
  snd (filesys_change_dir 14 1 fs_root_a "/a") = true ∧
  cwd_sector (fst (filesys_change_dir 14 1 fs_root_a "/a")) = 2.
Proof.
  pose proof (change_dir_spec 14 1 fs_root_a "/a") as (Hiff & Hcwd & _).
  assert (Hok : snd (filesys_change_dir 14 1 fs_root_a "/a") = true).
  { apply Hiff. split; reflexivity. }
  split; [exact Hok|].
  apply (Hcwd Hok).
Defined.

Lemma cwd_written_only_by_change_dir_witness :
  snd (filesys_change_dir 14 1 fs_root_a "/nope") = false ∧
  cwd_sector (fst (filesys_change_dir 14 1 fs_root_a "/nope")) = 1.
Proof.
  split; [reflexivity|].
  apply (cwd_written_only_by_change_dir 14 1 fs_root_a "/nope" 0 false).
  reflexivity.
Defined.

(** * Instances of the further properties *)

Lemma get_next_part_consumes_witness :
  get_next_part 14 "" "//ab/c" = (1, "ab", "/c") ∧
  skip_slashes "//ab/c" = "ab" +:+ "/c" ∧
  (String.length "/c" < String.length "//ab/c")%nat.
Proof.
  split; [reflexivity|].
  pose proof (get_next_part_consumes 14 "" "//ab/c" "ab" "/c" eq_refl)
    as (_ & _ & _ & H1 & _ & H2).
  split; assumption.
Defined.

Lemma find_file_balanced_witness :
  let res := find_file 14 1 fs_root_a "/a" in
  ∃ dh ih fh,
    find_dir res = Some dh ∧
    dir_get_inode (find_state res) (find_dir res) = Some ih ∧
    find_inode res = Some fh ∧
    balanced [dh; ih; fh] (new_events fs_root_a (find_state res)).
Proof.
  destruct (find_file_balanced 14 1 fs_root_a "/a")
    as (dh & ih & Hd & Hi & _ & H).
  change (find_code (find_file 14 1 fs_root_a "/a") =? 1) with true in H.
  destruct H as (fh & Hf & Hb).
  exists dh, ih, fh. split; [exact Hd|]. split; [exact Hi|].
  split; [exact Hf|exact Hb].
Defined.

Lemma change_dir_releases_handles_witness :
  find_code (find_file 14 1 fs_root_a "/a") ≠ -1 ∧
  balanced [] (new_events fs_root_a
                 (fst (filesys_change_dir 14 1 fs_root_a "/a"))).
Proof.
  assert (H : find_code (find_file 14 1 fs_root_a "/a") ≠ -1)
    by (vm_compute; discriminate).
  split; [exact H|].
  apply (change_dir_releases_handles 14 1 fs_root_a "/a" H).
Defined.

Lemma open_handles_witness :
  (snd (filesys_open 14 1 fs_root_a "/b") = OpenNull ∧
   balanced [] (new_events fs_root_a
                  (fst (filesys_open 14 1 fs_root_a "/b")))) ∧
  (∃ h fh,
     snd (filesys_open 14 1 fs_root_a "/a") = OpenDir h ∧
     open_dirs (fst (filesys_open 14 1 fs_root_a "/a")) !! h = Some fh ∧
     balanced [h; fh] (new_events fs_root_a
                         (fst (filesys_open 14 1 fs_root_a "/a")))).
Proof.
  split.
  - apply (proj1 (open_handles 14 1 fs_root_a "/b")). reflexivity.
  - destruct (proj2 (open_handles 14 1 fs_root_a "/a") eq_refl)
      as (h & fh & s & Hf & _ & Hkind & Hb).
    assert (Hfh : fh = 2%nat).
    { vm_compute in Hf. congruence. }
    subst fh.
    change (inode_is_dir (fst (filesys_open 14 1 fs_root_a "/a"))
              (Some 2%nat)) with true in Hkind.
    exists h, 2%nat. destruct Hkind as [Hk1 Hk2].
    split; [exact Hk1|]. split; [exact Hk2|exact Hb].
Defined.

Lemma find_file_depends_on_namespace_witness :
  find_code (find_file 14 1 fs_root_a "/a")
  = find_code (find_file 14 1 fs_in_a "/a") ∧
  find_code (find_file 14 1 fs_root_a "b")
  = find_code (find_file 14 1 fs_full "b").
Proof.
  split.
  - exact (proj1 (find_file_depends_on_namespace 14 1 fs_root_a fs_in_a
                    "/a" eq_refl (or_introl eq_refl))).
  - exact (proj1 (find_file_depends_on_namespace 14 1 fs_root_a fs_full
                    "b" eq_refl (or_intror eq_refl))).
Defined.

Lemma remove_refuses_witness :
  (snd (filesys_remove 14 1 fs_in_a "/a") = false ∧
   same_disk fs_in_a (fst (filesys_remove 14 1 fs_in_a "/a"))) ∧
  (snd (filesys_remove 14 1 fs_root_a "b") = false ∧
   same_disk fs_root_a (fst (filesys_remove 14 1 fs_root_a "b"))).
Proof.
  split.
  - apply (remove_refuses 14 1 fs_in_a "/a"). right. reflexivity.
  - apply (remove_refuses 14 1 fs_root_a "b"). left.
    vm_compute. discriminate.
Defined.

Lemma remove_bare_name_witness :
  snd (filesys_remove 14 1 fs_root_a "a") = true ∧
  find_code (find_file 14 1 (fst (filesys_remove 14 1 fs_root_a "a")) "a")
  = 0.
Proof.
  assert (Hlen : (String.length "a" <= 14)%nat) by (cbn; lia).
  assert (Hne : 2 ≠ cwd_sector fs_root_a) by (cbn; lia).
  pose proof (remove_bare_name 14 1 fs_root_a "a" 2 eq_refl Hlen eq_refl Hne)
    as (H1 & _ & _ & H2).
  split; [exact H1|exact H2].
Defined.

Lemma create_early_failure_witness :
  (snd (filesys_create 14 1 fs_root_a "/a" 0 false) = false ∧
   disk (fst (filesys_create 14 1 fs_root_a "/a" 0 false))
   = disk fs_root_a) ∧
  (snd (filesys_create 14 1 fs_full "x" 0 false) = false ∧
   free_map (fst (filesys_create 14 1 fs_full "x" 0 false))
   = free_map fs_full) ∧
  (snd (filesys_create 14 1 fs_inode_fails "x" 0 true) = false ∧
   free_map (fst (filesys_create 14 1 fs_inode_fails "x" 0 true))
   = free_map fs_inode_fails).
Proof.
  split; [|split].
  - assert (H : find_code (find_file 14 1 fs_root_a "/a") ≠ 0)
      by (vm_compute; discriminate).
    pose proof (create_early_failure 14 1 fs_root_a "/a" 0 false
                  (or_introl H)) as (H1 & H2 & _).
    split; [exact H1|exact H2].
  - pose proof (create_early_failure 14 1 fs_full "x" 0 false
                  (or_intror (or_introl eq_refl))) as (H1 & _ & H2).
    split; [exact H1|exact H2].
  - assert (H : ∃ fs, faults fs_inode_fails = true :: fs)
      by (exists []; reflexivity).
    pose proof (create_early_failure 14 1 fs_inode_fails "x" 0 true
                  (or_intror (or_intror H))) as (H1 & _ & H2).
    split; [exact H1|exact H2].
Defined.

Lemma create_success_state_witness :
  snd (filesys_create 14 1 fs_root_a "a/d" 0 true) = true ∧
  disk (fst (filesys_create 14 1 fs_root_a "a/d" 0 true)) !! 3
  = Some (mk_inode_disk true 0 (<[".." := 2]> (<["." := 3]> ∅))) ∧
  balanced [] (new_events fs_root_a
                 (fst (filesys_create 14 1 fs_root_a "a/d" 0 true))).
Proof.
  destruct (create_success_state 14 1 fs_root_a "a/d" 0 true 3
              eq_refl fs_root_a_ok eq_refl eq_refl)
    as (psec & Hp & Hok & _ & _ & _ & Hnew & _ & Hbal).
  assert (Hpsec : psec = 2).
  { vm_compute in Hp. congruence. }
  subst psec.
  split; [exact Hok|]. split; [exact Hnew|exact Hbal].
Defined.

Lemma create_twice_witness :
  find_code (find_file 14 1 (fst (filesys_create 14 1 fs_root_a "a/f" 7
                                    false)) "a/f") = 1 ∧
  snd (filesys_create 14 1 (fst (filesys_create 14 1 fs_root_a "a/f" 7
                                   false)) "a/f" 0 true) = false.
Proof.
  assert (Hfree : is_Some (first_free (free_map fs_root_a)))
    by (eexists; reflexivity).
  pose proof (create_twice 14 1 fs_root_a "a/f" 7 0 false true
                eq_refl fs_root_a_ok eq_refl Hfree) as (H1 & H2 & _).
  split; [exact H1|exact H2].
Defined.

Lemma mkdir_enter_leave_witness :
  let st1 := fst (filesys_create 14 1 fs_root_a "a/d" 0 true) in
  let st2 := fst (filesys_change_dir 14 1 st1 "a/d") in
  snd (filesys_change_dir 14 1 st1 "a/d") = true ∧
  cwd_sector st2 = 3 ∧
  snd (filesys_change_dir 14 1 st2 "..") = true ∧
  cwd_sector (fst (filesys_change_dir 14 1 st2 "..")) = 2.
Proof.
  assert (Hmax : (2 <= 14)%nat) by lia.
  pose proof (mkdir_enter_leave 14 1 fs_root_a "a/d" 0 3
                eq_refl eq_refl fs_root_a_ok eq_refl eq_refl Hmax)
    as (H1 & H2 & _ & _ & H3 & H4).
  split; [exact H1|]. split; [exact H2|]. split; [exact H3|exact H4].
Defined.

Lemma change_dir_then_relative_witness :
  snd (filesys_change_dir 14 1 fs_root_a "/a") = true ∧
  find_code (find_file 14 1 (fst (filesys_change_dir 14 1 fs_root_a "/a"))
               "b")
  = find_code (find_file 14 1 fs_root_a "/a/b").
Proof.
  split; [reflexivity|].
  apply (change_dir_then_relative 14 1 fs_root_a "/a" "b");
    reflexivity.
Defined.

Lemma find_file_loop_bounded_witness :
  (String.length "/a/b" < 9)%nat ∧
  is_Some (find_file_loop 14 9 fs_root_a "/a/b" "" None None 0) ∧
  find_file_loop 14 9 fs_root_a "/a/b" "" None None 0
  = find_file_loop 14 5 fs_root_a "/a/b" "" None None 0.
Proof.
  assert (H : (String.length "/a/b" < 9)%nat) by (cbn; lia).
  split; [exact H|].
  apply (find_file_loop_bounded 14 9 fs_root_a "/a/b" "" None None 0 H).
Defined.

Lemma unnameable_paths_witness :
  (snd (filesys_change_dir 14 1 fs_root_a "/") = false ∧
   snd (filesys_open 14 1 fs_root_a "/") = OpenNull) ∧
  snd (filesys_create 14 1 fs_root_a "/a/0123456789abcdef" 0 false)
  = false.
Proof.
  split.
  - pose proof (unnameable_paths 14 1 fs_root_a "/" 0 false
                  (or_intror eq_refl)) as (_ & H1 & _ & _ & H2 & _).
    split; [exact H2|exact H1].
  - assert (H : Exists (λ c, (14 < String.length c)%nat)
                  (components "/a/0123456789abcdef")).
    { apply Exists_cons_tl, Exists_cons_hd. cbn. lia. }
    pose proof (unnameable_paths 14 1 fs_root_a "/a/0123456789abcdef" 0
                  false (or_introl H)) as (_ & _ & H1 & _).
    exact H1.
Defined.

Lemma find_file_filename_witness :
  find_code (find_file 14 1 fs_root_a "/a//new") ≠ -1 ∧
  find_filename (find_file 14 1 fs_root_a "/a//new")
  = List.last (components "/a//new") "".
Proof.
  assert (H : find_code (find_file 14 1 fs_root_a "/a//new") ≠ -1)
    by (vm_compute; discriminate).
  split; [exact H|].
  exact (proj1 (find_file_filename 14 1 fs_root_a "/a//new" H)).
Defined.
